(** * Player-Samples: the game database, the message loop and the strategies

    A shallow embedding of the three sample players of the repository
    (00-reckless-abandon.go, 01-danger-noodle.go and the "death star" player):
    the [GameDatabase] with [InsertUpdateBot], [MyBots] and [TheirBots], the
    message loop [processMsgs], and one pass of each [runStrategy] loop.

    Go's [int] is the 64-bit two's complement integer: it is a [Z], and every
    sum, difference and quotient the source computes is wrapped by [wrap64].
    A [float64] is a [spec_float] at precision 53 and exponent bound 1024. *)

From Stdlib Require Import ZArith List Bool Lia String Permutation.
From Stdlib Require Import Floats.SpecFloat.
From Stdlib Require Import Sorted.
Import ListNotations.
Open Scope Z_scope.

(** ** Data model *)

(** [BotMsg]: a BOT representation sent by the game. *)
Module BotMsg.
Record t : Type := mk
  { PID : Z; BID : Z;
    X : Z; Y : Z;
    Health : Z;
    Fired : bool;
    HitX : Z; HitY : Z;
    Scrap : Z;
    Shield : bool }.

(** The zero value [BotMsg{}] of a freshly declared [var bot BotMsg]. *)
Definition zero : t := mk 0 0 0 0 0 false 0 0 0 false.
End BotMsg.

(** [GDBBot]: the bot record of the game database. *)
Module GDBBot.
Record t : Type := mk
  { BID : Z; PID : Z;
    X : Z; Y : Z;
    Health : Z }.

Definition zero : t := mk 0 0 0 0 0.
End GDBBot.

(** [GameDatabase]: the bots, in slice order, and our player ID. *)
Module GameDatabase.
Record t : Type := mk
  { Bots : list GDBBot.t;
    PID : Z }.

(** [gdb = GameDatabase{}] in [main]. *)
Definition empty : t := mk [] 0.
End GameDatabase.

Definition MaxHealth : Z := 12.

(** ** InsertUpdateBot *)

(** The test both loops of [InsertUpdateBot] make:
    [gdb.Bots[i].BID == b.BID && gdb.Bots[i].PID == b.PID]. *)
Definition same_bot (b : BotMsg.t) (bot : GDBBot.t) : bool :=
  (GDBBot.BID bot =? BotMsg.BID b) && (GDBBot.PID bot =? BotMsg.PID b).

(** The dead-bot loop: the first entry that matches is cut out of the slice
    ([append(gdb.Bots[:i], gdb.Bots[i+1:]...)]) and the function returns. *)
Fixpoint remove_bot (b : BotMsg.t) (bots : list GDBBot.t) : list GDBBot.t :=
  match bots with
  | [] => []
  | bot :: rest =>
      if same_bot b bot then rest else bot :: remove_bot b rest
  end.

(** The update loop: the first entry that matches takes the message's
    [X], [Y] and [Health]; [None] when the loop falls through. *)
Fixpoint update_bot (b : BotMsg.t) (bots : list GDBBot.t)
  : option (list GDBBot.t) :=
  match bots with
  | [] => None
  | bot :: rest =>
      if same_bot b bot
      then Some (GDBBot.mk (GDBBot.BID bot) (GDBBot.PID bot)
                   (BotMsg.X b) (BotMsg.Y b) (BotMsg.Health b) :: rest)
      else option_map (cons bot) (update_bot b rest)
  end.

(** The bot appended when no entry matched. *)
Definition new_bot (b : BotMsg.t) : GDBBot.t :=
  GDBBot.mk (BotMsg.BID b) (BotMsg.PID b)
    (BotMsg.X b) (BotMsg.Y b) (BotMsg.Health b).

Definition InsertUpdateBot (gdb : GameDatabase.t) (b : BotMsg.t)
  : GameDatabase.t :=
  if BotMsg.Health b <=? 0
  then GameDatabase.mk (remove_bot b (GameDatabase.Bots gdb))
         (GameDatabase.PID gdb)
  else
    match update_bot b (GameDatabase.Bots gdb) with
    | Some bots => GameDatabase.mk bots (GameDatabase.PID gdb)
    | None =>
        GameDatabase.mk (GameDatabase.Bots gdb ++ [new_bot b])
          (GameDatabase.PID gdb)
    end.

(** A sequence of upsert events applied in order. *)
Definition apply_events (gdb : GameDatabase.t) (evs : list BotMsg.t)
  : GameDatabase.t :=
  fold_left InsertUpdateBot evs gdb.

(** ** Identities *)

Definition has_id (p b : Z) (bot : GDBBot.t) : bool :=
  (GDBBot.PID bot =? p) && (GDBBot.BID bot =? b).

Definition msg_has_id (p b : Z) (m : BotMsg.t) : bool :=
  (BotMsg.PID m =? p) && (BotMsg.BID m =? b).

Definition bot_id (bot : GDBBot.t) : Z * Z :=
  (GDBBot.PID bot, GDBBot.BID bot).

(** The entries of the store with identity [(p, b)], in store order. *)
Definition lookup (p b : Z) (gdb : GameDatabase.t) : list GDBBot.t :=
  filter (has_id p b) (GameDatabase.Bots gdb).

(** The last event of the sequence that carries identity [(p, b)]. *)
Definition last_event (p b : Z) (evs : list BotMsg.t) : option BotMsg.t :=
  find (msg_has_id p b) (rev evs).

(** What the store must hold for [(p, b)] after [evs]. *)
Definition expected (p b : Z) (evs : list BotMsg.t) : list GDBBot.t :=
  match last_event p b evs with
  | Some m =>
      if 0 <? BotMsg.Health m
      then [GDBBot.mk b p (BotMsg.X m) (BotMsg.Y m) (BotMsg.Health m)]
      else []
  | None => []
  end.

Definition unique_ids (gdb : GameDatabase.t) : Prop :=
  NoDup (map bot_id (GameDatabase.Bots gdb)).

(** ** MyBots and TheirBots

    Both return a slice of pointers [&gdb.Bots[i]]; a pointer into the
    store is its index [i]. *)

Fixpoint pointers_from (keep : GDBBot.t -> bool) (i : nat)
  (bots : list GDBBot.t) : list nat :=
  match bots with
  | [] => []
  | bot :: rest =>
      if keep bot
      then i :: pointers_from keep (S i) rest
      else pointers_from keep (S i) rest
  end.

Definition MyBots (gdb : GameDatabase.t) : list nat :=
  pointers_from (fun bot => GDBBot.PID bot =? GameDatabase.PID gdb)
    0%nat (GameDatabase.Bots gdb).

Definition TheirBots (gdb : GameDatabase.t) : list nat :=
  pointers_from (fun bot => negb (GDBBot.PID bot =? GameDatabase.PID gdb))
    0%nat (GameDatabase.Bots gdb).

(** Reading through a pointer. *)
Definition deref (gdb : GameDatabase.t) (p : nat) : GDBBot.t :=
  nth p (GameDatabase.Bots gdb) GDBBot.zero.

(** ** Machine arithmetic *)

(** Go's [int] arithmetic is silent two's complement wrap-around. *)
Definition wrap64 (z : Z) : Z := (z + 2 ^ 63) mod 2 ^ 64 - 2 ^ 63.

Definition MinInt64 : Z := - 2 ^ 63.

Definition float64 : Type := spec_float.

(** [float64(z)] for an [int]: rounding to nearest, ties to even. *)
Definition float64_of_int (z : Z) : float64 := binary_normalize 53 1024 z 0 false.

Definition fadd : float64 -> float64 -> float64 := SFadd 53 1024.
Definition fmul : float64 -> float64 -> float64 := SFmul 53 1024.
Definition fdiv : float64 -> float64 -> float64 := SFdiv 53 1024.
Definition fsqrt : float64 -> float64 := SFsqrt 53 1024.
Definition flt : float64 -> float64 -> bool := SFltb.
Definition fle : float64 -> float64 -> bool := SFleb.

(** [int(f)]: the fraction is cut off toward zero.  Go leaves the result
    open when the value does not fit; the amd64 conversion yields the
    smallest [int], which is what is written here. *)
Definition int_of_float64 (f : float64) : Z :=
  match f with
  | S754_zero _ => 0
  | S754_finite s m e =>
      let mag := if 0 <=? e then Z.pos m * 2 ^ e else Z.pos m / 2 ^ (- e) in
      let v := if s then - mag else mag in
      if (MinInt64 <=? v) && (v <? 2 ^ 63) then v else MinInt64
  | _ => MinInt64
  end.

(** [math.Pow(x, 2)]: one rounded product. *)
Definition pow2 (x : float64) : float64 := fmul x x.

(** [distance]: the distance between two points. *)
Definition distance (xa ya xb yb : Z) : float64 :=
  let xdist := float64_of_int (wrap64 (xb - xa)) in
  let ydist := float64_of_int (wrap64 (yb - ya)) in
  fsqrt (fadd (pow2 xdist) (pow2 ydist)).

(** The constants of the players, as the [float64] values the compiler
    rounds them to. *)
Definition BotDiam : float64 := float64_of_int 60.
Definition TwoPi : float64 := S754_finite false 7074237752028440 (-50).
Definition TenDegrees : float64 := S754_finite false 6288211335136391 (-55).
Definition MaxFloat64 : float64 := SFmax_float 53 1024.
Definition MaxPow : Z := 12.

(** ** Commands *)

Module Command.
Record t : Type := mk
  { Cmd : string;
    BID : Z;
    X : Z; Y : Z;
    TPID : Z; TBID : Z;
    FPow : Z; MPow : Z; SPow : Z }.
End Command.

Definition Move (b : GDBBot.t) (x y : Z) : Command.t :=
  Command.mk "MOVE"%string (GDBBot.BID b) x y 0 0 0 0 0.

Definition Target (b bot : GDBBot.t) : Command.t :=
  Command.mk "TARGET"%string (GDBBot.BID b) 0 0 (GDBBot.PID bot) (GDBBot.BID bot)
    0 0 0.

Definition Power (b : GDBBot.t) (fire move shield : Z) : Command.t :=
  Command.mk "POWER"%string (GDBBot.BID b) 0 0 0 0 fire move shield.

(** ** The strategy loop

    One pass of the body of [for { ... }] reads the store and either
    returns, panics, or sends its commands and sleeps.  A pass is taken
    against one state of the store: no event is applied while it runs. *)

Inductive Pass : Type :=
| Returned
| Panicked (sent : list Command.t)
| Sent (sent : list Command.t).

(** How far the loop got over the store states it was given to see. *)
Inductive Status : Type :=
| Looping
| Ended (pass : nat)
| Crashed (pass : nat).

(** The loop over the store states seen by its successive passes; [n]
    numbers the pass that reads the head of [seen]. *)
Fixpoint strategyLoop (body : GameDatabase.t -> Pass)
  (seen : list GameDatabase.t) (n : nat) : list Command.t * Status :=
  match seen with
  | [] => ([], Looping)
  | gdb :: later =>
      match body gdb with
      | Returned => ([], Ended n)
      | Panicked sent => (sent, Crashed n)
      | Sent sent =>
          let (more, status) := strategyLoop body later (S n) in
          (sent ++ more, status)
      end
  end.

(** The pass that reads [gdb] sends its commands and the loop goes on. *)
Definition sends (body : GameDatabase.t -> Pass) (gdb : GameDatabase.t)
  : Prop :=
  exists sent, body gdb = Sent sent.

(** [ttlX, ttlY] summed over a slice of pointers. *)
Definition sum_positions (gdb : GameDatabase.t) (ptrs : list nat) : Z * Z :=
  fold_left
    (fun ttl p =>
       (wrap64 (fst ttl + GDBBot.X (deref gdb p)),
        wrap64 (snd ttl + GDBBot.Y (deref gdb p))))
    ptrs (0, 0).

(** [a / len(s)] for a non-empty slice: the quotient truncated to zero. *)
Definition div_len (a : Z) (n : nat) : Z := wrap64 (Z.quot a (Z.of_nat n)).

(** *** Variant A: reckless abandon (00-reckless-abandon.go) *)

Module RecklessAbandon.

(** [Follow]: a move onto the followed bot's position. *)
Definition Follow (b bot : GDBBot.t) : Command.t :=
  Command.mk "MOVE"%string (GDBBot.BID b) (GDBBot.X bot) (GDBBot.Y bot) 0 0 0 0 0.

(** "Calculate the lowest health out there". *)
Definition lowHealth (gdb : GameDatabase.t) (theirBots : list nat) : Z :=
  fold_left
    (fun low p =>
       if GDBBot.Health (deref gdb p) <? low
       then GDBBot.Health (deref gdb p) else low)
    theirBots MaxHealth.

(** "Find the weakest enemy bots". *)
Definition weakBots (gdb : GameDatabase.t) : list nat :=
  let theirBots := TheirBots gdb in
  filter (fun p => GDBBot.Health (deref gdb p) =? lowHealth gdb theirBots)
    theirBots.

(** "Find the closest weak bot": the loop as the source has it.  The
    distance measured in the body is the one of [closeBot], whichever
    [bot] the loop is at. *)
Fixpoint closest (gdb : GameDatabase.t) (avgX avgY : Z) (bots : list nat)
  (closeBot : nat) (closeDist : float64) : nat :=
  match bots with
  | [] => closeBot
  | bot :: rest =>
      let dist :=
        distance avgX avgY
          (GDBBot.X (deref gdb closeBot)) (GDBBot.Y (deref gdb closeBot)) in
      if flt dist closeDist
      then closest gdb avgX avgY rest bot dist
      else closest gdb avgX avgY rest closeBot closeDist
  end.

(** The same loop as its comment and the specification describe it:
    each weak bot is measured by its own distance. *)
Fixpoint closest_as_specified (gdb : GameDatabase.t) (avgX avgY : Z)
  (bots : list nat) (closeBot : nat) (closeDist : float64) : nat :=
  match bots with
  | [] => closeBot
  | bot :: rest =>
      let dist :=
        distance avgX avgY
          (GDBBot.X (deref gdb bot)) (GDBBot.Y (deref gdb bot)) in
      if flt dist closeDist
      then closest_as_specified gdb avgX avgY rest bot dist
      else closest_as_specified gdb avgX avgY rest closeBot closeDist
  end.

Inductive Choice : Type :=
| NoWeakBot
| DivideByZero
| Chosen (target : nat).

(** The pass up to "We have our target!", for either tie-break loop. *)
Definition chooseWith
  (tiebreak : GameDatabase.t -> Z -> Z -> list nat -> nat -> float64 -> nat)
  (gdb : GameDatabase.t) : Choice :=
  match weakBots gdb with
  | [] => NoWeakBot
  | [only] => Chosen only
  | (first :: _ :: _) as weak =>
      let myBots := MyBots gdb in
      match myBots with
      | [] => DivideByZero
      | _ :: _ =>
          let ttl := sum_positions gdb myBots in
          let avgX := div_len (fst ttl) (List.length myBots) in
          let avgY := div_len (snd ttl) (List.length myBots) in
          let closeDist :=
            distance avgX avgY
              (GDBBot.X (deref gdb first)) (GDBBot.Y (deref gdb first)) in
          Chosen (tiebreak gdb avgX avgY weak first closeDist)
      end
  end.

Definition chooseTarget : GameDatabase.t -> Choice := chooseWith closest.

Definition chooseTarget_as_specified : GameDatabase.t -> Choice :=
  chooseWith closest_as_specified.

Section Opening.

Variable Cos Sin : float64 -> float64.
(** [draw i]: what [rand.Float64()] returns for the bot at index [i]. *)
Variable draw : nat -> float64.

(** "Move quickly in random direction": the commands for the bots
    from index [i] on. *)
Fixpoint scatter (gdb : GameDatabase.t) (i : nat) (myBots : list nat)
  : list Command.t :=
  match myBots with
  | [] => []
  | p :: rest =>
      let bot := deref gdb p in
      let radians := fmul TwoPi (draw i) in
      let x :=
        wrap64 (GDBBot.X bot +
                int_of_float64 (fmul (Cos radians) (float64_of_int 999))) in
      let y :=
        wrap64 (GDBBot.Y bot +
                int_of_float64 (fmul (Sin radians) (float64_of_int 999))) in
      Power bot 0 11 1 :: Move bot x y :: scatter gdb (S i) rest
  end.

End Opening.

(** One pass of the loop of [runStrategy].  The commands of the [Sent]
    case are those of a pass during which the store does not change: the
    source reads [bot] and [target] through their pointers at each send,
    and on the first pass it sleeps between the bots. *)
Definition loopBody (gdb : GameDatabase.t) : Pass :=
  match chooseTarget gdb with
  | NoWeakBot => Returned
  | DivideByZero => Panicked []
  | Chosen target =>
      Sent (flat_map
              (fun p =>
                 [Follow (deref gdb p) (deref gdb target);
                  Target (deref gdb p) (deref gdb target)])
              (MyBots gdb))
  end.

End RecklessAbandon.

(** *** The trigonometry of the formation players

    [math.Cos], [math.Sin] and [math.Atan2] belong to Go's library; the
    two formation players are written over any three such functions. *)

Section Formations.

Variable Cos Sin : float64 -> float64.
Variable Atan2 : float64 -> float64 -> float64.

(** [coordAngle]: the angle of the line from the first point to the
    second. *)
Definition coordAngle (x1 y1 x2 y2 : Z) : float64 :=
  let xDelt := float64_of_int (wrap64 (x2 - x1)) in
  let yDelt := float64_of_int (wrap64 (y2 - y1)) in
  Atan2 yDelt xDelt.

(** [angle] (danger noodle) and [botAngle] (death star). *)
Definition botAngle (bot1 bot2 : GDBBot.t) : float64 :=
  coordAngle (GDBBot.X bot1) (GDBBot.Y bot1) (GDBBot.X bot2) (GDBBot.Y bot2).

(** The point at [radius] from [(x, y)] in direction [a]. *)
Definition polar (a radius : float64) (x y : Z) : Z * Z :=
  (wrap64 (int_of_float64 (fmul (Cos a) radius) + x),
   wrap64 (int_of_float64 (fmul (Sin a) radius) + y)).

(** [Follow] of both formation players: one bot diameter behind. *)
Definition Follow (b bot : GDBBot.t) : Command.t :=
  let to := polar (botAngle bot b) BotDiam (GDBBot.X bot) (GDBBot.Y bot) in
  Move b (fst to) (snd to).

End Formations.

(** *** Variant B: danger noodle (01-danger-noodle.go) *)

Module DangerNoodle.

Definition MovePow : Z := 4.
Definition Distance : float64 := float64_of_int 180.

(** "Find closest bot": the lead bot's loop over the enemies. *)
Fixpoint closestEnemy (gdb : GameDatabase.t) (bot : GDBBot.t)
  (theirBots : list nat) (target : nat) (closeDist : float64) : nat :=
  match theirBots with
  | [] => target
  | enemy :: rest =>
      let dist :=
        distance (GDBBot.X bot) (GDBBot.Y bot)
          (GDBBot.X (deref gdb enemy)) (GDBBot.Y (deref gdb enemy)) in
      if flt dist closeDist
      then closestEnemy gdb bot rest enemy dist
      else closestEnemy gdb bot rest target closeDist
  end.

Section Trig.

Variable Cos Sin : float64 -> float64.
Variable Atan2 : float64 -> float64 -> float64.

(** The branch [i == 0]; with no enemy it is left by [continue]. *)
Definition lead (gdb : GameDatabase.t) (bot : GDBBot.t)
  : list Command.t :=
  match TheirBots gdb with
  | [] => []
  | (first :: _) as theirBots =>
      let closeDist :=
        distance (GDBBot.X bot) (GDBBot.Y bot)
          (GDBBot.X (deref gdb first)) (GDBBot.Y (deref gdb first)) in
      let target :=
        deref gdb (closestEnemy gdb bot theirBots first closeDist) in
      let angleRad := fadd (botAngle Atan2 target bot) TenDegrees in
      let to :=
        polar Cos Sin angleRad Distance
          (GDBBot.X target) (GDBBot.Y target) in
      [Target bot target;
       Power bot (MaxPow - MovePow) MovePow 0;
       Move bot (fst to) (snd to)]
  end.

(** The branch [i > 0], for the bots behind [ahead = myBots[i-1]]. *)
Fixpoint trail (gdb : GameDatabase.t) (ahead : nat) (behind : list nat)
  : list Command.t :=
  match behind with
  | [] => []
  | p :: rest =>
      Follow Cos Sin Atan2 (deref gdb p) (deref gdb ahead)
      :: Power (deref gdb p) 0 MovePow (MaxPow - MovePow)
      :: trail gdb p rest
  end.

(** One pass of the loop of [runStrategy]: it has no [return]. *)
Definition loopBody (gdb : GameDatabase.t) : Pass :=
  match MyBots gdb with
  | [] => Sent []
  | first :: rest => Sent (lead gdb (deref gdb first) ++ trail gdb first rest)
  end.

End Trig.

End DangerNoodle.

(** *** Variant C: death star (the third player) *)

Module DeathStar.

Definition keepDist : float64 := float64_of_int 1200.
Definition HurryDist : float64 := float64_of_int 180.
Definition FireDist : float64 := float64_of_int 30.

(** The angle between neighbours on the dish. *)
Definition radians : float64 :=
  let circumference := fmul TwoPi keepDist in
  let segments := fdiv circumference BotDiam in
  fdiv TwoPi segments.

(** "Find nearest enemy": [closeBot] starts as the nil pointer. *)
Fixpoint nearestEnemy (gdb : GameDatabase.t) (centerBot : GDBBot.t)
  (theirBots : list nat) (closeBot : option nat) (closeDist : float64)
  : option nat :=
  match theirBots with
  | [] => closeBot
  | bot :: rest =>
      let dist :=
        distance (GDBBot.X centerBot) (GDBBot.Y centerBot)
          (GDBBot.X (deref gdb bot)) (GDBBot.Y (deref gdb bot)) in
      if flt dist closeDist
      then nearestEnemy gdb centerBot rest (Some bot) dist
      else nearestEnemy gdb centerBot rest closeBot closeDist
  end.

(** "Determine power" for a bot at [distToPosition] from its place. *)
Definition power (bot : GDBBot.t) (distToPosition : float64)
  : list Command.t :=
  if flt HurryDist distToPosition then [Power bot 0 7 5]
  else if fle distToPosition FireDist then [Power bot 5 2 5]
  else [].

Section Trig.

Variable Cos Sin : float64 -> float64.
Variable Atan2 : float64 -> float64 -> float64.

(** The place on the dish of the bot at index [i]. *)
Definition place (x y : Z) (centerBot : GDBBot.t) (i centerIndex : nat)
  : Z * Z :=
  let angle :=
    coordAngle Atan2 x y (GDBBot.X centerBot) (GDBBot.Y centerBot) in
  let angle :=
    fadd angle
      (fmul radians
         (float64_of_int (wrap64 (Z.of_nat i - Z.of_nat centerIndex)))) in
  polar Cos Sin angle keepDist x y.

(** "Position bots and target": the commands of the bots from index
    [i] on.  [Target] through the nil pointer panics, after the [Move]
    of that bot has been sent. *)
Fixpoint position (gdb : GameDatabase.t) (x y : Z) (centerBot : GDBBot.t)
  (centerIndex : nat) (closeBot : option nat) (i : nat)
  (myBots : list nat) : list Command.t * bool :=
  match myBots with
  | [] => ([], true)
  | p :: rest =>
      let bot := deref gdb p in
      let new := place x y centerBot i centerIndex in
      match closeBot with
      | None => ([Move bot (fst new) (snd new)], false)
      | Some t =>
          let distToPosition :=
            distance (fst new) (snd new) (GDBBot.X bot) (GDBBot.Y bot) in
          let mine :=
            Move bot (fst new) (snd new)
            :: Target bot (deref gdb t)
            :: power bot distToPosition in
          let (more, ok) :=
            position gdb x y centerBot centerIndex closeBot (S i) rest in
          (mine ++ more, ok)
      end
  end.

(** One pass of the loop of [runStrategy]. *)
Definition loopBody (gdb : GameDatabase.t) : Pass :=
  match TheirBots gdb with
  | [] => Returned
  | (_ :: _) as theirBots =>
      let ttl := sum_positions gdb theirBots in
      let x := div_len (fst ttl) (List.length theirBots) in
      let y := div_len (snd ttl) (List.length theirBots) in
      match MyBots gdb with
      | [] => Returned
      | (_ :: _) as myBots =>
          let centerIndex := (List.length myBots / 2)%nat in
          let centerBot := deref gdb (nth centerIndex myBots 0%nat) in
          let closeBot :=
            nearestEnemy gdb centerBot theirBots None MaxFloat64 in
          let (sent, ok) :=
            position gdb x y centerBot centerIndex closeBot 0 myBots in
          if ok then Sent sent else Panicked sent
      end
  end.

End Trig.

End DeathStar.

(** *** What the strategies look at *)

(** The health read through a pointer. *)
Definition health (gdb : GameDatabase.t) (p : nat) : Z :=
  GDBBot.Health (deref gdb p).

(** The distance from [(x, y)] to the bot behind a pointer. *)
Definition dist_to (gdb : GameDatabase.t) (x y : Z) (p : nat) : float64 :=
  distance x y (GDBBot.X (deref gdb p)) (GDBBot.Y (deref gdb p)).

(** A number that is neither NaN nor below zero. *)
Definition nonneg (f : float64) : bool :=
  match f with
  | S754_nan => false
  | S754_zero _ => true
  | S754_infinity s => negb s
  | S754_finite s _ _ => negb s
  end.

(** The units behind the pointers of [MyBots] and of [TheirBots]. *)
Definition our_units (gdb : GameDatabase.t) : list GDBBot.t :=
  map (deref gdb) (MyBots gdb).

Definition their_units (gdb : GameDatabase.t) : list GDBBot.t :=
  map (deref gdb) (TheirBots gdb).

(** ** The message loop *)

(** [Msg]: every line is first unmarshalled into it, for its type. *)
Module Msg.
Record t : Type := mk { Type' : string }.
End Msg.

(** [ReadyMsg]: the READY message sent by the game. *)
Module ReadyMsg.
Record t : Type := mk
  { PID : Z;
    Bots : list BotMsg.t }.
End ReadyMsg.

(** [json.Unmarshal] belongs to Go's library.  What the loop sees of a
    call [err = json.Unmarshal([]byte(jsonmsg), &v)] is the error and the
    contents of [v] afterwards: on a type mismatch the decoder skips the
    field, goes on filling the others and returns the error at the end. *)
Module Unmarshal.
Record t (A : Type) : Type := mk
  { into : A;
    err : bool }.
Arguments mk {A} _ _.
Arguments into {A} _.
Arguments err {A} _.
End Unmarshal.

(** A line read from the connection, by what [json.Unmarshal] makes of it
    for each of the three targets of the loop. *)
Module Json.
Record t : Type := mk
  { toMsg : Unmarshal.t Msg.t;
    toReadyMsg : Unmarshal.t ReadyMsg.t;
    toBotMsg : Unmarshal.t BotMsg.t }.
End Json.

(** [MsgQueueItem]: [Err] holds whether the read error is non-nil. *)
Module MsgQueueItem.
Record t : Type := mk
  { Msg : Json.t;
    Err : bool }.
End MsgQueueItem.

(** The lines the loop writes to the log. *)
Inductive LogLine : Type :=
| ReadError
| UnmarshalFailed (jsonmsg : Json.t)
| MyPlayerID (pid : Z)
| UnknownType (type : string).

(** What [processMsgs] acts on: the store, the log, and, for every
    [go runStrategy()] so far, the store as it was at that statement. *)
Module Session.
Record t : Type := mk
  { gdb : GameDatabase.t;
    log : list LogLine;
    strategies : list GameDatabase.t }.

Definition start : t := mk GameDatabase.empty [] [].
End Session.

Definition logged (s : Session.t) (l : LogLine) : Session.t :=
  Session.mk (Session.gdb s) (Session.log s ++ [l]) (Session.strategies s).

Definition logged_if (failed : bool) (s : Session.t) (l : LogLine)
  : Session.t :=
  if failed then logged s l else s.

Definition stored (s : Session.t) (gdb : GameDatabase.t) : Session.t :=
  Session.mk gdb (Session.log s) (Session.strategies s).

Definition spawned (s : Session.t) : Session.t :=
  Session.mk (Session.gdb s) (Session.log s)
    (Session.strategies s ++ [Session.gdb s]).

(** How one pass of the loop of [processMsgs] ends. *)
Inductive Next : Type :=
| Continue
| Return.

(** One pass of the loop of [processMsgs], on the item it received. *)
Definition processMsg (queueItem : MsgQueueItem.t) (s : Session.t)
  : Session.t * Next :=
  let jsonmsg := MsgQueueItem.Msg queueItem in
  if MsgQueueItem.Err queueItem then (logged s ReadError, Continue)
  else if Unmarshal.err (Json.toMsg jsonmsg)
  then (logged s (UnmarshalFailed jsonmsg), Return)
  else
    let msg := Unmarshal.into (Json.toMsg jsonmsg) in
    if (Msg.Type' msg =? "READY")%string then
      let ready := Unmarshal.into (Json.toReadyMsg jsonmsg) in
      let s :=
        logged_if (Unmarshal.err (Json.toReadyMsg jsonmsg)) s
          (UnmarshalFailed jsonmsg) in
      let s :=
        stored s
          (GameDatabase.mk (GameDatabase.Bots (Session.gdb s))
             (ReadyMsg.PID ready)) in
      let s := logged s (MyPlayerID (GameDatabase.PID (Session.gdb s))) in
      let s := stored s (apply_events (Session.gdb s) (ReadyMsg.Bots ready)) in
      (spawned s, Continue)
    else if (Msg.Type' msg =? "BOT")%string then
      let bot := Unmarshal.into (Json.toBotMsg jsonmsg) in
      let s :=
        logged_if (Unmarshal.err (Json.toBotMsg jsonmsg)) s
          (UnmarshalFailed jsonmsg) in
      (stored s (InsertUpdateBot (Session.gdb s) bot), Continue)
    else (logged s (UnknownType (Msg.Type' msg)), Continue).

(** Where the loop is once the queue has nothing more for it. *)
Inductive Loop : Type :=
| Receiving
| Left (unread : list MsgQueueItem.t).

(** [processMsgs] over the items that reach the queue, in order. *)
Fixpoint processMsgs (queue : list MsgQueueItem.t) (s : Session.t)
  : Session.t * Loop :=
  match queue with
  | [] => (s, Receiving)
  | queueItem :: rest =>
      match processMsg queueItem s with
      | (s', Continue) => processMsgs rest s'
      | (s', Return) => (s', Left rest)
      end
  end.

(** *** The lines of a session *)

(** The type of a line that decodes far enough to have one. *)
Definition line_type (queueItem : MsgQueueItem.t) : option string :=
  let jsonmsg := MsgQueueItem.Msg queueItem in
  if MsgQueueItem.Err queueItem then None
  else if Unmarshal.err (Json.toMsg jsonmsg) then None
  else Some (Msg.Type' (Unmarshal.into (Json.toMsg jsonmsg))).

Definition is_ready (queueItem : MsgQueueItem.t) : bool :=
  match line_type queueItem with
  | Some type => (type =? "READY")%string
  | None => false
  end.

(** The [ReadyMsg] a line leaves in [ready]. *)
Definition ready_of (queueItem : MsgQueueItem.t) : ReadyMsg.t :=
  Unmarshal.into (Json.toReadyMsg (MsgQueueItem.Msg queueItem)).

(** A line that cannot be unmarshalled even into [Msg]. *)
Definition undecodable (queueItem : MsgQueueItem.t) : bool :=
  negb (MsgQueueItem.Err queueItem) &&
  Unmarshal.err (Json.toMsg (MsgQueueItem.Msg queueItem)).

(** The items the loop gets to: those up to the first undecodable line. *)
Fixpoint handled (queue : list MsgQueueItem.t) : list MsgQueueItem.t :=
  match queue with
  | [] => []
  | queueItem :: rest =>
      if undecodable queueItem then [queueItem] else queueItem :: handled rest
  end.

(** The store a strategy must find when it is started for [ready]: the
    player ID of the message, and its bots applied in order. *)
Definition committed (ready : ReadyMsg.t) (before : GameDatabase.t)
  : GameDatabase.t :=
  apply_events
    (GameDatabase.mk (GameDatabase.Bots before) (ReadyMsg.PID ready))
    (ReadyMsg.Bots ready).







(** *** What a line does to the store *)

Definition is_bot (queueItem : MsgQueueItem.t) : bool :=
  match line_type queueItem with
  | Some type => (negb (type =? "READY") && (type =? "BOT"))%string
  | None => false
  end.

(** The [BotMsg] a line leaves in [bot]. *)
Definition bot_of (queueItem : MsgQueueItem.t) : BotMsg.t :=
  Unmarshal.into (Json.toBotMsg (MsgQueueItem.Msg queueItem)).

(** The store after a line, from the store before it. *)
Definition store_after (gdb : GameDatabase.t) (queueItem : MsgQueueItem.t)
  : GameDatabase.t :=
  if is_ready queueItem then committed (ready_of queueItem) gdb
  else if is_bot queueItem then InsertUpdateBot gdb (bot_of queueItem)
  else gdb.

(** Where the loop is after a queue: left at the first undecodable line,
    with the lines behind it unread, or still receiving. *)
Fixpoint loop_after (queue : list MsgQueueItem.t) : Loop :=
  match queue with
  | [] => Receiving
  | queueItem :: rest =>
      if undecodable queueItem then Left rest else loop_after rest
  end.

(** The last READY line the loop gets to. *)
Definition last_ready (queue : list MsgQueueItem.t)
  : option MsgQueueItem.t :=
  find is_ready (rev (handled queue)).

(** No unit of the store is dead. *)
Definition all_alive (gdb : GameDatabase.t) : Prop :=
  Forall (fun bot => 0 < GDBBot.Health bot) (GameDatabase.Bots gdb).

(** *** Sample lines *)

(** A line that is not JSON at all: every [Unmarshal] fails on it and
    leaves its target untouched. *)
Definition garbage_line : MsgQueueItem.t :=
  MsgQueueItem.mk
    (Json.mk (Unmarshal.mk (Msg.mk EmptyString) true)
       (Unmarshal.mk (ReadyMsg.mk 0 []) true)
       (Unmarshal.mk BotMsg.zero true))
    false.

(** A well-formed BOT line. *)
Definition bot_line (b : BotMsg.t) : MsgQueueItem.t :=
  MsgQueueItem.mk
    (Json.mk (Unmarshal.mk (Msg.mk "BOT") false)
       (Unmarshal.mk (ReadyMsg.mk (BotMsg.PID b) []) false)
       (Unmarshal.mk b false))
    false.

(** A BOT line one field of which has the wrong JSON type: [Unmarshal]
    into [BotMsg] reports it after filling the other fields, [partial]. *)
Definition mistyped_bot_line (partial : BotMsg.t) : MsgQueueItem.t :=
  MsgQueueItem.mk
    (Json.mk (Unmarshal.mk (Msg.mk "BOT") false)
       (Unmarshal.mk (ReadyMsg.mk (BotMsg.PID partial) []) false)
       (Unmarshal.mk partial true))
    false.


(** *** Sample stores *)

(** Our bot at the origin and four enemies of health 3, 5, 3, 3 at
    distances 10, 1, 4, 4 from it. *)
Definition tie_store : GameDatabase.t :=
  GameDatabase.mk
    [GDBBot.mk 1 1 0 0 12;
     GDBBot.mk 1 2 10 0 3;
     GDBBot.mk 2 2 1 0 5;
     GDBBot.mk 3 2 4 0 3;
     GDBBot.mk 4 2 0 4 3]
    1.

(** Our bot alone. *)
Definition lone_store : GameDatabase.t :=
  GameDatabase.mk [GDBBot.mk 1 1 0 0 12] 1.

(** * Theorems *)

(** ** Facts about the two loops of InsertUpdateBot *)

Lemma same_bot_has_id (m : BotMsg.t) (bot : GDBBot.t) :
  same_bot m bot = has_id (BotMsg.PID m) (BotMsg.BID m) bot.
Proof. unfold same_bot, has_id. apply andb_comm. Qed.

Lemma has_id_bot_id (p b : Z) (bot : GDBBot.t) :
  has_id p b bot = true <-> bot_id bot = (p, b).
Proof.
  unfold has_id, bot_id. rewrite andb_true_iff, !Z.eqb_eq.
  split; [intros [-> ->]; reflexivity | intros H; inversion H; auto].
Qed.

Lemma filter_none {A} (f : A -> bool) (l : list A) :
  (forall x, In x l -> f x = false) -> filter f l = [].
Proof.
  induction l as [|a l IH]; simpl; intros H; [reflexivity|].
  rewrite (H a) by auto. apply IH. intros x Hx. apply H. auto.
Qed.

Lemma unique_tail_no_id (p b : Z) (bot : GDBBot.t) (rest : list GDBBot.t) :
  NoDup (map bot_id (bot :: rest)) -> has_id p b bot = true ->
  filter (has_id p b) rest = [].
Proof.
  intros Hnd Hid. apply filter_none. intros x Hx.
  destruct (has_id p b x) eqn:E; [|reflexivity].
  apply has_id_bot_id in Hid, E. inversion Hnd as [|? ? Hnin _]; subst.
  exfalso. apply Hnin. rewrite Hid, <- E. now apply in_map.
Qed.

Lemma remove_bot_other (m : BotMsg.t) (p b : Z) (bots : list GDBBot.t) :
  msg_has_id p b m = false ->
  filter (has_id p b) (remove_bot m bots) = filter (has_id p b) bots.
Proof.
  intros Hm. induction bots as [|bot rest IH]; simpl; [reflexivity|].
  destruct (same_bot m bot) eqn:E.
  - rewrite same_bot_has_id in E.
    destruct (has_id p b bot) eqn:E'; [|reflexivity].
    apply has_id_bot_id in E, E'. rewrite E in E'. inversion E'; subst.
    unfold msg_has_id in Hm. rewrite !Z.eqb_refl in Hm. discriminate.
  - simpl. now rewrite IH.
Qed.

Lemma remove_bot_same (m : BotMsg.t) (bots : list GDBBot.t) :
  NoDup (map bot_id bots) ->
  filter (has_id (BotMsg.PID m) (BotMsg.BID m)) (remove_bot m bots) = [].
Proof.
  induction bots as [|bot rest IH]; simpl; intros Hnd; [reflexivity|].
  destruct (same_bot m bot) eqn:E.
  - rewrite same_bot_has_id in E. eapply unique_tail_no_id; eauto.
  - simpl. rewrite same_bot_has_id in E. rewrite E. apply IH.
    now inversion Hnd.
Qed.

Lemma remove_bot_incl (m : BotMsg.t) (bots : list GDBBot.t) (x : GDBBot.t) :
  In x (remove_bot m bots) -> In x bots.
Proof.
  induction bots as [|bot rest IH]; simpl; [auto|].
  destruct (same_bot m bot); simpl; intuition.
Qed.

Lemma remove_bot_unique (m : BotMsg.t) (bots : list GDBBot.t) :
  NoDup (map bot_id bots) -> NoDup (map bot_id (remove_bot m bots)).
Proof.
  induction bots as [|bot rest IH]; simpl; intros Hnd; [constructor|].
  inversion Hnd as [|? ? Hnin Hrest]; subst.
  destruct (same_bot m bot); [assumption|].
  simpl. constructor; [|auto].
  intros Hin. apply Hnin. apply in_map_iff in Hin as [x [Hx Hin]].
  apply in_map_iff. exists x. split; [assumption|].
  eapply remove_bot_incl; eauto.
Qed.

Lemma update_bot_ids (m : BotMsg.t) (bots bots' : list GDBBot.t) :
  update_bot m bots = Some bots' -> map bot_id bots' = map bot_id bots.
Proof.
  revert bots'. induction bots as [|bot rest IH]; simpl; intros bots' H.
  - discriminate.
  - destruct (same_bot m bot).
    + inversion H; subst. reflexivity.
    + destruct (update_bot m rest) as [r|]; simpl in H; [|discriminate].
      inversion H; subst. simpl. f_equal. now apply IH.
Qed.

Lemma update_bot_none (m : BotMsg.t) (bots : list GDBBot.t) :
  update_bot m bots = None <->
  forall x, In x bots -> same_bot m x = false.
Proof.
  induction bots as [|bot rest IH]; simpl.
  - split; [intros _ x []|reflexivity].
  - destruct (same_bot m bot) eqn:E.
    + split; [discriminate|]. intros H. rewrite (H bot) in E by auto.
      discriminate.
    + destruct (update_bot m rest) as [r|]; simpl.
      * split; [discriminate|]. intros H.
        assert (Hn : @None (list GDBBot.t) = None) by reflexivity.
        destruct IH as [_ IH]. discriminate IH. intros x Hx. apply H. auto.
      * split; [|reflexivity]. intros _ x [<-|Hx]; [assumption|].
        destruct IH as [IH _]. now apply IH.
Qed.

Lemma update_bot_other (m : BotMsg.t) (p b : Z) (bots bots' : list GDBBot.t) :
  msg_has_id p b m = false -> update_bot m bots = Some bots' ->
  filter (has_id p b) bots' = filter (has_id p b) bots.
Proof.
  intros Hm. revert bots'.
  induction bots as [|bot rest IH]; simpl; intros bots' H; [discriminate|].
  destruct (same_bot m bot) eqn:E.
  - inversion H; subst. simpl.
    rewrite same_bot_has_id in E. apply has_id_bot_id in E.
    unfold bot_id in E. inversion E as [[Ep Eb]].
    assert (Hf : forall x y h, has_id p b (GDBBot.mk (GDBBot.BID bot)
                   (GDBBot.PID bot) x y h) = false).
    { intros. unfold has_id. simpl. rewrite Ep, Eb. exact Hm. }
    rewrite Hf. destruct bot as [bb bp bx by_ bh]. simpl in *.
    now rewrite (Hf bx by_ bh).
  - destruct (update_bot m rest) as [r|]; simpl in H; [|discriminate].
    inversion H; subst. simpl. now rewrite (IH r eq_refl).
Qed.

Lemma update_bot_same (m : BotMsg.t) (bots bots' : list GDBBot.t) :
  NoDup (map bot_id bots) -> update_bot m bots = Some bots' ->
  filter (has_id (BotMsg.PID m) (BotMsg.BID m)) bots' =
  [GDBBot.mk (BotMsg.BID m) (BotMsg.PID m)
     (BotMsg.X m) (BotMsg.Y m) (BotMsg.Health m)].
Proof.
  revert bots'.
  induction bots as [|bot rest IH]; simpl; intros bots' Hnd H; [discriminate|].
  destruct (same_bot m bot) eqn:E.
  - inversion H; subst. simpl. rewrite same_bot_has_id in E.
    pose proof (unique_tail_no_id _ _ _ _ Hnd E) as Ht.
    apply has_id_bot_id in E. unfold bot_id in E. injection E as Ep Eb.
    rewrite Ht, Ep, Eb. unfold has_id. simpl. now rewrite !Z.eqb_refl.
  - destruct (update_bot m rest) as [r|]; simpl in H; [|discriminate].
    inversion H; subst. simpl. rewrite same_bot_has_id in E. rewrite E.
    apply IH; [now inversion Hnd | reflexivity].
Qed.

(** ** One call of InsertUpdateBot *)

Lemma msg_has_id_true (p b : Z) (m : BotMsg.t) :
  msg_has_id p b m = true -> BotMsg.PID m = p /\ BotMsg.BID m = b.
Proof.
  unfold msg_has_id. rewrite andb_true_iff, !Z.eqb_eq. auto.
Qed.

Lemma InsertUpdateBot_PID (gdb : GameDatabase.t) (m : BotMsg.t) :
  GameDatabase.PID (InsertUpdateBot gdb m) = GameDatabase.PID gdb.
Proof.
  unfold InsertUpdateBot. destruct (BotMsg.Health m <=? 0); [reflexivity|].
  destruct (update_bot m (GameDatabase.Bots gdb)); reflexivity.
Qed.

Lemma InsertUpdateBot_keeps_unique (gdb : GameDatabase.t) (m : BotMsg.t) :
  unique_ids gdb -> unique_ids (InsertUpdateBot gdb m).
Proof.
  unfold unique_ids, InsertUpdateBot. intros Hnd.
  destruct (BotMsg.Health m <=? 0); simpl.
  - now apply remove_bot_unique.
  - destruct (update_bot m (GameDatabase.Bots gdb)) as [bots|] eqn:E; simpl.
    + now rewrite (update_bot_ids _ _ _ E).
    + rewrite map_app. simpl.
      apply NoDup_app.
      * assumption.
      * constructor; [intros []|constructor].
      * intros x Hx [<-|[]].
        apply in_map_iff in Hx as [bot [Hid Hin]].
        apply update_bot_none with (x := bot) in E; [|assumption].
        rewrite same_bot_has_id in E.
        assert (has_id (BotMsg.PID m) (BotMsg.BID m) bot = true)
          by (apply has_id_bot_id; exact Hid).
        congruence.
Qed.

Lemma lookup_InsertUpdateBot (gdb : GameDatabase.t) (m : BotMsg.t) (p b : Z) :
  unique_ids gdb ->
  lookup p b (InsertUpdateBot gdb m) =
  if msg_has_id p b m
  then if 0 <? BotMsg.Health m
       then [GDBBot.mk b p (BotMsg.X m) (BotMsg.Y m) (BotMsg.Health m)]
       else []
  else lookup p b gdb.
Proof.
  unfold unique_ids, lookup, InsertUpdateBot. intros Hnd.
  destruct (msg_has_id p b m) eqn:Hm.
  - apply msg_has_id_true in Hm as [<- <-].
    destruct (BotMsg.Health m <=? 0) eqn:Hh; simpl.
    + replace (0 <? BotMsg.Health m) with false by (symmetry; lia).
      now apply remove_bot_same.
    + replace (0 <? BotMsg.Health m) with true by (symmetry; lia).
      destruct (update_bot m (GameDatabase.Bots gdb)) as [bots|] eqn:E; simpl.
      * eapply update_bot_same; eauto.
      * rewrite filter_app. simpl.
        rewrite filter_none.
        -- unfold has_id, new_bot. simpl. now rewrite !Z.eqb_refl.
        -- intros x Hx. rewrite <- same_bot_has_id.
           now apply (proj1 (update_bot_none m _) E).
  - destruct (BotMsg.Health m <=? 0); simpl.
    + now apply remove_bot_other.
    + destruct (update_bot m (GameDatabase.Bots gdb)) as [bots|] eqn:E; simpl.
      * eapply update_bot_other; eauto.
      * rewrite filter_app. simpl.
        assert (Hn : has_id p b (new_bot m) = false) by exact Hm.
        rewrite Hn. apply app_nil_r.
Qed.

Lemma apply_events_snoc (gdb : GameDatabase.t) (evs : list BotMsg.t)
  (m : BotMsg.t) :
  apply_events gdb (evs ++ [m]) = InsertUpdateBot (apply_events gdb evs) m.
Proof. unfold apply_events. now rewrite fold_left_app. Qed.

Lemma apply_events_unique (gdb : GameDatabase.t) (evs : list BotMsg.t) :
  unique_ids gdb -> unique_ids (apply_events gdb evs).
Proof.
  intros H. induction evs as [|m evs IH] using rev_ind; [assumption|].
  rewrite apply_events_snoc. now apply InsertUpdateBot_keeps_unique.
Qed.

Lemma empty_unique : unique_ids GameDatabase.empty.
Proof. constructor. Qed.

(** C1. For every finite sequence of upsert events applied in order to the
    empty store, the entries the store holds for an identity (PID, BID) are:
    exactly one entry carrying the X, Y and Health of the last event for
    that identity when that event has Health > 0; no entry when that event
    has Health <= 0 (or when no event names the identity). *)
Theorem last_write_wins (evs : list BotMsg.t) (p b : Z) :
  lookup p b (apply_events GameDatabase.empty evs) = expected p b evs.
Proof.
  induction evs as [|m evs IH] using rev_ind; [reflexivity|].
  rewrite apply_events_snoc.
  rewrite lookup_InsertUpdateBot by (apply apply_events_unique, empty_unique).
  unfold expected, last_event. rewrite rev_app_distr. simpl.
  destruct (msg_has_id p b m); [reflexivity|]. exact IH.
Qed.

(** C8. After every sequence of InsertUpdateBot calls that starts from the
    empty store, every unit of the store has Health > 0. *)
Theorem no_dead_bot_in_store (evs : list BotMsg.t) :
  Forall (fun bot => 0 < GDBBot.Health bot)
    (GameDatabase.Bots (apply_events GameDatabase.empty evs)).
Proof.
  induction evs as [|m evs IH] using rev_ind; [constructor|].
  rewrite apply_events_snoc.
  set (gdb := apply_events GameDatabase.empty evs) in *.
  clearbody gdb. destruct gdb as [bots pid]. simpl in IH.
  unfold InsertUpdateBot. simpl.
  destruct (BotMsg.Health m <=? 0) eqn:Hh; simpl.
  - rewrite Forall_forall in *. intros x Hx. apply IH.
    eapply remove_bot_incl; eauto.
  - assert (Hpos : 0 < BotMsg.Health m) by lia. clear Hh.
    destruct (update_bot m bots) as [bots'|] eqn:E; simpl.
    + revert bots' E. induction bots as [|bot rest IHb]; simpl; intros bots' E.
      * discriminate.
      * inversion IH as [|? ? Hbot Hrest]; subst.
        destruct (same_bot m bot).
        -- inversion E; subst. constructor; [exact Hpos|exact Hrest].
        -- destruct (update_bot m rest) as [r|]; simpl in E; [|discriminate].
           inversion E; subst. constructor; [exact Hbot|]. now apply IHb.
    + apply Forall_app. split; [exact IH|]. constructor; [exact Hpos|constructor].
Qed.

(** C9. InsertUpdateBot preserves identity uniqueness: when no two units of
    the store share a (PID, BID) pair before the call, none do after it,
    whatever the message. *)
Theorem InsertUpdateBot_unique_ids (gdb : GameDatabase.t) (m : BotMsg.t) :
  NoDup (map bot_id (GameDatabase.Bots gdb)) ->
  NoDup (map bot_id (GameDatabase.Bots (InsertUpdateBot gdb m))).
Proof. apply InsertUpdateBot_keeps_unique. Qed.

Lemma InsertUpdateBot_unique_ids_witness :
  NoDup (map bot_id [GDBBot.mk 1 1 0 0 12; GDBBot.mk 1 2 100 0 12]) /\
  NoDup (map bot_id (GameDatabase.Bots
    (InsertUpdateBot
       (GameDatabase.mk [GDBBot.mk 1 1 0 0 12; GDBBot.mk 1 2 100 0 12] 1)
       (BotMsg.mk 2 2 7 7 9 false 0 0 0 false)))).
Proof.
  assert (H : NoDup (map bot_id [GDBBot.mk 1 1 0 0 12; GDBBot.mk 1 2 100 0 12])).
  { simpl. constructor.
    - intros [H|[]]. discriminate H.
    - constructor; [intros []|constructor]. }
  split; [exact H|].
  exact (InsertUpdateBot_unique_ids
           (GameDatabase.mk [GDBBot.mk 1 1 0 0 12; GDBBot.mk 1 2 100 0 12] 1)
           (BotMsg.mk 2 2 7 7 9 false 0 0 0 false) H).
Defined.

(** C10. A call with Health > 0 for an identity that is present rewrites
    the X, Y and Health of the first unit carrying that identity and nothing
    else: the units before and after it, the order of the units, the
    unit's own BID and PID, and the store's PID stay as they were. *)
Theorem InsertUpdateBot_update_frame (gdb : GameDatabase.t) (m : BotMsg.t) :
  0 < BotMsg.Health m ->
  (exists bot, In bot (GameDatabase.Bots gdb) /\ same_bot m bot = true) ->
  exists pre bot post,
    GameDatabase.Bots gdb = pre ++ bot :: post /\
    same_bot m bot = true /\
    (forall x, In x pre -> same_bot m x = false) /\
    InsertUpdateBot gdb m =
    GameDatabase.mk
      (pre ++ GDBBot.mk (GDBBot.BID bot) (GDBBot.PID bot)
                (BotMsg.X m) (BotMsg.Y m) (BotMsg.Health m) :: post)
      (GameDatabase.PID gdb).
Proof.
  intros Hpos Hex. destruct gdb as [bots pid]. simpl in *.
  unfold InsertUpdateBot. simpl.
  replace (BotMsg.Health m <=? 0) with false by (symmetry; lia).
  induction bots as [|hd rest IH].
  - destruct Hex as [bot [[] _]].
  - simpl. destruct (same_bot m hd) eqn:E.
    + exists [], hd, rest. simpl. repeat split; try assumption.
      intros x [].
    + destruct IH as [pre [bot [post [Hb [Hs [Hpre Hr]]]]]].
      { destruct Hex as [bot [[<-|Hin] Hs]]; [congruence|]. eauto. }
      exists (hd :: pre), bot, post. simpl. repeat split.
      * now rewrite Hb.
      * assumption.
      * intros x [<-|Hx]; auto.
      * destruct (update_bot m rest) as [r|] eqn:Er; simpl in *.
        -- inversion Hr; subst. reflexivity.
        -- exfalso. apply (proj1 (update_bot_none m rest)) with (x := bot) in Er.
           ++ congruence.
           ++ rewrite Hb. apply in_elt.
Qed.

Lemma InsertUpdateBot_update_frame_witness :
  exists pre bot post,
    [GDBBot.mk 1 1 0 0 12; GDBBot.mk 1 2 100 0 12; GDBBot.mk 2 2 5 5 3] =
      pre ++ bot :: post /\
    same_bot (BotMsg.mk 2 1 40 50 9 false 0 0 0 false) bot = true /\
    (forall x, In x pre ->
       same_bot (BotMsg.mk 2 1 40 50 9 false 0 0 0 false) x = false) /\
    InsertUpdateBot
      (GameDatabase.mk
         [GDBBot.mk 1 1 0 0 12; GDBBot.mk 1 2 100 0 12; GDBBot.mk 2 2 5 5 3] 1)
      (BotMsg.mk 2 1 40 50 9 false 0 0 0 false) =
    GameDatabase.mk
      (pre ++ GDBBot.mk (GDBBot.BID bot) (GDBBot.PID bot) 40 50 9 :: post) 1.
Proof.
  apply (InsertUpdateBot_update_frame
           (GameDatabase.mk
              [GDBBot.mk 1 1 0 0 12; GDBBot.mk 1 2 100 0 12;
               GDBBot.mk 2 2 5 5 3] 1)
           (BotMsg.mk 2 1 40 50 9 false 0 0 0 false)).
  - reflexivity.
  - exists (GDBBot.mk 1 2 100 0 12). split; [simpl; auto|reflexivity].
Defined.

(** ** MyBots and TheirBots *)

Lemma pointers_from_split (keep : GDBBot.t -> bool) (bots : list GDBBot.t) :
  forall i,
    Permutation
      (pointers_from keep i bots ++
       pointers_from (fun bot => negb (keep bot)) i bots)
      (seq i (List.length bots)).
Proof.
  induction bots as [|bot rest IH]; intros i; simpl; [constructor|].
  destruct (keep bot); simpl.
  - apply perm_skip, IH.
  - apply Permutation_sym. eapply Permutation_trans.
    + apply perm_skip, Permutation_sym, (IH (S i)).
    + apply Permutation_middle.
Qed.

Lemma pointers_from_kept (keep : GDBBot.t -> bool) (bots : list GDBBot.t) :
  forall i p,
    In p (pointers_from keep i bots) ->
    (i <= p)%nat /\ keep (nth (p - i) bots GDBBot.zero) = true.
Proof.
  induction bots as [|bot rest IH]; intros i p; simpl; [intros []|].
  destruct (keep bot) eqn:E.
  - intros [<-|Hin].
    + rewrite Nat.sub_diag. auto.
    + apply IH in Hin as [Hle Hk]. split; [lia|].
      replace (p - i)%nat with (S (p - S i)) by lia. exact Hk.
  - intros Hin. apply IH in Hin as [Hle Hk]. split; [lia|].
    replace (p - i)%nat with (S (p - S i)) by lia. exact Hk.
Qed.

(** C6. For every store and every player identity, MyBots and TheirBots
    partition the units of the store: the two pointer lists together hold
    the pointer of every unit of the store and nothing else, no pointer
    occurs twice in them (so none is in both lists), and a pointer is in
    MyBots exactly when the unit it points at carries the store's PID. *)
Theorem MyBots_TheirBots_partition (gdb : GameDatabase.t) :
  Permutation (MyBots gdb ++ TheirBots gdb)
    (seq 0 (List.length (GameDatabase.Bots gdb))) /\
  NoDup (MyBots gdb ++ TheirBots gdb) /\
  (forall p, In p (MyBots gdb) ->
     GDBBot.PID (deref gdb p) = GameDatabase.PID gdb) /\
  (forall p, In p (TheirBots gdb) ->
     GDBBot.PID (deref gdb p) <> GameDatabase.PID gdb).
Proof.
  assert (Hperm : Permutation (MyBots gdb ++ TheirBots gdb)
                    (seq 0 (List.length (GameDatabase.Bots gdb)))).
  { unfold MyBots, TheirBots.
    apply (pointers_from_split
             (fun bot => GDBBot.PID bot =? GameDatabase.PID gdb)). }
  split; [exact Hperm|]. split.
  - eapply Permutation_NoDup; [apply Permutation_sym, Hperm|apply seq_NoDup].
  - split; intros p Hin; apply pointers_from_kept in Hin as [_ Hk];
      rewrite Nat.sub_0_r in Hk; unfold deref.
    + now apply Z.eqb_eq.
    + apply negb_true_iff in Hk. now apply Z.eqb_neq.
Qed.

(** ** The tie-break of variant A *)

Lemma flt_irrefl (x : float64) : flt x x = false.
Proof.
  unfold flt, SFltb. destruct x as [s|s| |s m e]; simpl.
  - reflexivity.
  - now destruct s.
  - reflexivity.
  - rewrite Z.compare_refl.
    assert (H : Pos.compare_cont Eq m m = Eq) by apply Pos.compare_refl.
    rewrite H. now destruct s.
Qed.

(** The loop of the source never leaves the bot it starts from. *)
Lemma closest_stays (gdb : GameDatabase.t) (avgX avgY : Z) (closeBot : nat)
  (bots : list nat) :
  RecklessAbandon.closest gdb avgX avgY bots closeBot
    (distance avgX avgY
       (GDBBot.X (deref gdb closeBot)) (GDBBot.Y (deref gdb closeBot))) =
  closeBot.
Proof.
  induction bots as [|bot rest IH]; simpl; [reflexivity|].
  now rewrite flt_irrefl.
Qed.

Lemma chooseTarget_first (gdb : GameDatabase.t) (first second : nat)
  (rest : list nat) :
  RecklessAbandon.weakBots gdb = first :: second :: rest ->
  MyBots gdb <> [] ->
  RecklessAbandon.chooseTarget gdb = RecklessAbandon.Chosen first.
Proof.
  intros Hw Hm. unfold RecklessAbandon.chooseTarget, RecklessAbandon.chooseWith.
  rewrite Hw. destruct (MyBots gdb) as [|m ms]; [congruence|].
  now rewrite closest_stays.
Qed.

(** C2. In the store with our bot at the origin and enemies of health
    3, 5, 3, 3 at distances 10, 1, 4, 4 from it, the weak bots are the
    first, third and fourth enemy; the loop of the source chooses the first
    enemy, at distance 10, where the tie-break by distance chooses the
    third, the first of the two at distance 4. *)
Theorem tie_break_keeps_first_weak_bot :
  RecklessAbandon.weakBots tie_store = [1; 3; 4]%nat /\
  map (fun p =>
         distance 0 0
           (GDBBot.X (deref tie_store p)) (GDBBot.Y (deref tie_store p)))
    (TheirBots tie_store) =
  map float64_of_int [10; 1; 4; 4] /\
  RecklessAbandon.chooseTarget tie_store = RecklessAbandon.Chosen 1 /\
  RecklessAbandon.chooseTarget_as_specified tie_store =
  RecklessAbandon.Chosen 3.
Proof. repeat split; vm_compute; reflexivity. Qed.

(** ** The end of the strategy loop *)

Lemma strategyLoop_ends (body : GameDatabase.t -> Pass)
  (before : list GameDatabase.t) (gdb : GameDatabase.t)
  (after : list GameDatabase.t) :
  Forall (sends body) before -> body gdb = Returned ->
  forall n,
    snd (strategyLoop body (before ++ gdb :: after) n) =
    Ended (n + List.length before).
Proof.
  intros Hb Hg. induction Hb as [|g before [sent Hs] _ IH]; intros n; simpl.
  - rewrite Hg. simpl. f_equal. lia.
  - rewrite Hs. specialize (IH (S n)).
    destruct (strategyLoop body (before ++ gdb :: after) (S n)) as [more st].
    simpl in *. rewrite IH. f_equal. lia.
Qed.

Lemma strategyLoop_goes_on (body : GameDatabase.t -> Pass) :
  (forall gdb, sends body gdb) ->
  forall seen n, snd (strategyLoop body seen n) = Looping.
Proof.
  intros Hs seen. induction seen as [|gdb later IH]; intros n; simpl.
  - reflexivity.
  - destruct (Hs gdb) as [sent ->]. specialize (IH (S n)).
    now destruct (strategyLoop body later (S n)).
Qed.

Lemma RecklessAbandon_returns (gdb : GameDatabase.t) :
  TheirBots gdb = [] -> RecklessAbandon.loopBody gdb = Returned.
Proof.
  intros H. unfold RecklessAbandon.loopBody, RecklessAbandon.chooseTarget,
    RecklessAbandon.chooseWith, RecklessAbandon.weakBots.
  now rewrite H.
Qed.

Lemma DeathStar_returns (Cos Sin : float64 -> float64)
  (Atan2 : float64 -> float64 -> float64) (gdb : GameDatabase.t) :
  TheirBots gdb = [] -> DeathStar.loopBody Cos Sin Atan2 gdb = Returned.
Proof. intros H. unfold DeathStar.loopBody. now rewrite H. Qed.

Lemma DangerNoodle_sends (Cos Sin : float64 -> float64)
  (Atan2 : float64 -> float64 -> float64) (gdb : GameDatabase.t) :
  sends (DangerNoodle.loopBody Cos Sin Atan2) gdb.
Proof.
  unfold sends, DangerNoodle.loopBody. destruct (MyBots gdb); eauto.
Qed.

(** C3, as the code has it.  The loops of variants A and C return in the
    first pass that finds no opposing unit in the store, when the passes
    before it all sent their commands; the loop of variant B has no return:
    whatever stores its passes find, with or without opposing units, it goes
    on looping. *)
Theorem strategy_loop_end :
  (forall before gdb after,
     Forall (sends RecklessAbandon.loopBody) before ->
     TheirBots gdb = [] ->
     snd (strategyLoop RecklessAbandon.loopBody (before ++ gdb :: after) 0) =
     Ended (List.length before)) /\
  (forall Cos Sin Atan2 before gdb after,
     Forall (sends (DeathStar.loopBody Cos Sin Atan2)) before ->
     TheirBots gdb = [] ->
     snd (strategyLoop (DeathStar.loopBody Cos Sin Atan2)
            (before ++ gdb :: after) 0) =
     Ended (List.length before)) /\
  (forall Cos Sin Atan2 seen,
     snd (strategyLoop (DangerNoodle.loopBody Cos Sin Atan2) seen 0) =
     Looping).
Proof.
  repeat split.
  - intros before gdb after Hb Hg.
    apply (strategyLoop_ends _ before gdb after Hb
             (RecklessAbandon_returns gdb Hg) 0%nat).
  - intros Cos Sin Atan2 before gdb after Hb Hg.
    apply (strategyLoop_ends _ before gdb after Hb
             (DeathStar_returns Cos Sin Atan2 gdb Hg) 0%nat).
  - intros Cos Sin Atan2 seen.
    apply strategyLoop_goes_on. apply DangerNoodle_sends.
Qed.

Lemma strategy_loop_end_witness :
  snd (strategyLoop RecklessAbandon.loopBody
         ([tie_store] ++ lone_store :: [tie_store]) 0) = Ended 1.
Proof.
  apply (proj1 strategy_loop_end [tie_store] lone_store [tie_store]).
  - constructor; [|constructor]. eexists. vm_compute. reflexivity.
  - reflexivity.
Defined.

(** C3 fails for variant B: with our bot alone in the store, every pass of
    its loop finds no opposing unit, sends nothing and loops. *)
Lemma danger_noodle_never_returns :
  TheirBots lone_store = [] /\
  forall Cos Sin Atan2,
    strategyLoop (DangerNoodle.loopBody Cos Sin Atan2)
      [lone_store; lone_store; lone_store] 0 = ([], Looping).
Proof. split; [reflexivity|]. intros. reflexivity. Qed.

(** ** The message loop *)

(** C4. The loop receives a line that is not JSON, then a well-formed BOT
    line for a live bot: it logs the first and returns; the BOT line is
    left unread and the store stays empty, where the same BOT line alone
    puts its bot into the store. *)
Theorem undecodable_line_ends_processMsgs :
  let bot := BotMsg.mk 2 1 100 0 12 false 0 0 0 false in
  processMsgs [garbage_line; bot_line bot] Session.start =
  (logged Session.start (UnmarshalFailed (MsgQueueItem.Msg garbage_line)),
   Left [bot_line bot]) /\
  processMsgs [bot_line bot] Session.start =
  (stored Session.start (GameDatabase.mk [new_bot bot] 0), Receiving).
Proof. split; reflexivity. Qed.

(** C5. The loop receives a BOT line whose typed decode fails after the
    decoder has filled PID, BID, Y and Health: the failure is logged and
    InsertUpdateBot is called all the same, so the empty store gains a
    unit.  When the decode leaves the zero message, the call removes the
    unit of identity (0, 0). *)
Theorem mistyped_bot_line_changes_store :
  let partial := BotMsg.mk 2 1 0 5 7 false 0 0 0 false in
  processMsg (mistyped_bot_line partial) Session.start =
  (Session.mk (GameDatabase.mk [GDBBot.mk 1 2 0 5 7] 0)
     [UnmarshalFailed (MsgQueueItem.Msg (mistyped_bot_line partial))] [],
   Continue) /\
  Session.gdb
    (fst (processMsg (mistyped_bot_line BotMsg.zero)
            (Session.mk (GameDatabase.mk [GDBBot.mk 0 0 30 40 12] 1) [] []))) =
  GameDatabase.mk [] 1.
Proof. split; reflexivity. Qed.

(** ** Starting the strategy *)

Lemma processMsg_next (queueItem : MsgQueueItem.t) (s : Session.t) :
  snd (processMsg queueItem s) =
  if undecodable queueItem then Return else Continue.
Proof.
  unfold processMsg, undecodable.
  destruct (MsgQueueItem.Err queueItem); simpl; [reflexivity|].
  destruct (Unmarshal.err (Json.toMsg (MsgQueueItem.Msg queueItem))); simpl;
    [reflexivity|].
  repeat match goal with |- context [if ?c then _ else _] => destruct c end;
    reflexivity.
Qed.

Lemma processMsg_strategies (queueItem : MsgQueueItem.t) (s : Session.t) :
  Session.strategies (fst (processMsg queueItem s)) =
  Session.strategies s ++
  (if is_ready queueItem
   then [committed (ready_of queueItem) (Session.gdb s)] else []).
Proof.
  unfold processMsg, is_ready, line_type, ready_of, committed.
  destruct (MsgQueueItem.Err queueItem); simpl; [now rewrite app_nil_r|].
  destruct (Unmarshal.err (Json.toMsg (MsgQueueItem.Msg queueItem))); simpl;
    [now rewrite app_nil_r|].
  destruct (Msg.Type' (Unmarshal.into (Json.toMsg (MsgQueueItem.Msg queueItem)))
            =? "READY")%string; simpl.
  - destruct (Unmarshal.err (Json.toReadyMsg (MsgQueueItem.Msg queueItem)));
      reflexivity.
  - destruct (Msg.Type'
                (Unmarshal.into (Json.toMsg (MsgQueueItem.Msg queueItem)))
              =? "BOT")%string; simpl.
    + destruct (Unmarshal.err (Json.toBotMsg (MsgQueueItem.Msg queueItem)));
        simpl; now rewrite app_nil_r.
    + now rewrite app_nil_r.
Qed.


Lemma apply_events_PID (evs : list BotMsg.t) :
  forall gdb,
    GameDatabase.PID (apply_events gdb evs) = GameDatabase.PID gdb.
Proof.
  induction evs as [|m evs IH]; intros gdb; simpl; [reflexivity|].
  unfold apply_events in *. simpl. rewrite IH. apply InsertUpdateBot_PID.
Qed.



(** * Further properties of the game database *)

Lemma remove_bot_absent (m : BotMsg.t) (bots : list GDBBot.t) :
  (forall x, In x bots -> same_bot m x = false) -> remove_bot m bots = bots.
Proof.
  induction bots as [|bot rest IH]; simpl; intros H; [reflexivity|].
  rewrite (H bot) by auto. f_equal. apply IH. intros x Hx. apply H. auto.
Qed.

Lemma filter_nil_none {A} (f : A -> bool) (l : list A) :
  filter f l = [] -> forall x, In x l -> f x = false.
Proof.
  induction l as [|a l IH]; simpl; intros H x Hx; [destruct Hx|].
  destruct (f a) eqn:E; [discriminate|].
  destruct Hx as [<-|Hx]; [assumption|]. now apply IH.
Qed.

Lemma update_bot_twice (m : BotMsg.t) (bots bots' : list GDBBot.t) :
  update_bot m bots = Some bots' -> update_bot m bots' = Some bots'.
Proof.
  revert bots'. induction bots as [|bot rest IH]; simpl; intros bots' H.
  - discriminate.
  - destruct (same_bot m bot) eqn:E.
    + inversion H; subst. simpl.
      assert (Es : same_bot m
                (GDBBot.mk (GDBBot.BID bot) (GDBBot.PID bot)
                   (BotMsg.X m) (BotMsg.Y m) (BotMsg.Health m)) = true)
        by exact E.
      now rewrite Es.
    + destruct (update_bot m rest) as [r|]; simpl in H; [|discriminate].
      inversion H; subst. simpl. rewrite E. now rewrite (IH r eq_refl).
Qed.

Lemma update_bot_app_new (m : BotMsg.t) (bots : list GDBBot.t) :
  update_bot m bots = None ->
  update_bot m (bots ++ [new_bot m]) = Some (bots ++ [new_bot m]).
Proof.
  induction bots as [|bot rest IH]; simpl; intros H.
  - unfold same_bot, new_bot. simpl. now rewrite !Z.eqb_refl.
  - destruct (same_bot m bot); [discriminate|].
    destruct (update_bot m rest) as [r|]; simpl in H; [discriminate|].
    now rewrite IH.
Qed.

(** X1. Applying the same message twice is the same as applying it once,
    on every store without two units of one identity. *)
Theorem InsertUpdateBot_idempotent (gdb : GameDatabase.t) (m : BotMsg.t) :
  unique_ids gdb ->
  InsertUpdateBot (InsertUpdateBot gdb m) m = InsertUpdateBot gdb m.
Proof.
  intros Hu. destruct gdb as [bots pid]. unfold unique_ids in Hu.
  simpl in Hu. unfold InsertUpdateBot. simpl.
  destruct (BotMsg.Health m <=? 0) eqn:Hh; simpl.
  - f_equal. apply remove_bot_absent. intros x Hx.
    rewrite same_bot_has_id.
    apply (filter_nil_none _ _ (remove_bot_same m bots Hu) x Hx).
  - destruct (update_bot m bots) as [bots'|] eqn:E; simpl.
    + now rewrite (update_bot_twice _ _ _ E).
    + now rewrite (update_bot_app_new _ _ E).
Qed.

Lemma InsertUpdateBot_idempotent_witness :
  let gdb := GameDatabase.mk [GDBBot.mk 1 1 0 0 12; GDBBot.mk 1 2 100 0 12] 1 in
  let m := BotMsg.mk 2 1 0 0 0 false 0 0 0 false in
  InsertUpdateBot (InsertUpdateBot gdb m) m = InsertUpdateBot gdb m.
Proof.
  apply InsertUpdateBot_idempotent.
  unfold unique_ids. simpl. constructor.
  - intros [H|[]]. discriminate H.
  - constructor; [intros []|constructor].
Defined.

(** X2. A call never touches the units of another identity: for every
    store, the entries of every identity other than the message's are the
    same after the call as before, in the same order. *)
Theorem InsertUpdateBot_other_identity (gdb : GameDatabase.t) (m : BotMsg.t)
  (p b : Z) :
  msg_has_id p b m = false ->
  lookup p b (InsertUpdateBot gdb m) = lookup p b gdb.
Proof.
  intros Hm. unfold lookup, InsertUpdateBot.
  destruct (BotMsg.Health m <=? 0); simpl.
  - now apply remove_bot_other.
  - destruct (update_bot m (GameDatabase.Bots gdb)) as [bots|] eqn:E; simpl.
    + eapply update_bot_other; eauto.
    + rewrite filter_app. simpl.
      assert (Hn : has_id p b (new_bot m) = false) by exact Hm.
      rewrite Hn. apply app_nil_r.
Qed.

Lemma InsertUpdateBot_other_identity_witness :
  let gdb := GameDatabase.mk [GDBBot.mk 1 1 0 0 12; GDBBot.mk 1 2 100 0 12] 1 in
  let m := BotMsg.mk 2 1 0 0 0 false 0 0 0 false in
  lookup 1 1 (InsertUpdateBot gdb m) = lookup 1 1 gdb.
Proof. apply InsertUpdateBot_other_identity. reflexivity. Defined.

(** X3. A message with Health <= 0 for an identity that is present cuts
    the first unit of that identity out of the store; the units before and
    after it, their order and the store's PID stay as they were. *)
Theorem InsertUpdateBot_remove_frame (gdb : GameDatabase.t) (m : BotMsg.t) :
  BotMsg.Health m <= 0 ->
  (exists bot, In bot (GameDatabase.Bots gdb) /\ same_bot m bot = true) ->
  exists pre bot post,
    GameDatabase.Bots gdb = pre ++ bot :: post /\
    same_bot m bot = true /\
    (forall x, In x pre -> same_bot m x = false) /\
    InsertUpdateBot gdb m =
    GameDatabase.mk (pre ++ post) (GameDatabase.PID gdb).
Proof.
  intros Hh Hex. destruct gdb as [bots pid]. simpl in *.
  unfold InsertUpdateBot. simpl.
  replace (BotMsg.Health m <=? 0) with true by (symmetry; lia).
  induction bots as [|hd rest IH].
  - destruct Hex as [bot [[] _]].
  - simpl. destruct (same_bot m hd) eqn:E.
    + exists [], hd, rest. simpl. repeat split; try assumption.
      intros x [].
    + destruct IH as [pre [bot [post [Hb [Hs [Hpre Hr]]]]]].
      { destruct Hex as [bot [[<-|Hin] Hs]]; [congruence|]. eauto. }
      exists (hd :: pre), bot, post. simpl. repeat split.
      * now rewrite Hb.
      * assumption.
      * intros x [<-|Hx]; auto.
      * inversion Hr as [Hr']. now rewrite Hr'.
Qed.

Lemma InsertUpdateBot_remove_frame_witness :
  let gdb :=
    GameDatabase.mk
      [GDBBot.mk 1 1 0 0 12; GDBBot.mk 1 2 100 0 12; GDBBot.mk 2 2 5 5 3] 1 in
  let m := BotMsg.mk 2 1 0 0 0 false 0 0 0 false in
  exists pre bot post,
    GameDatabase.Bots gdb = pre ++ bot :: post /\
    same_bot m bot = true /\
    (forall x, In x pre -> same_bot m x = false) /\
    InsertUpdateBot gdb m =
    GameDatabase.mk (pre ++ post) (GameDatabase.PID gdb).
Proof.
  apply InsertUpdateBot_remove_frame.
  - simpl. lia.
  - exists (GDBBot.mk 1 2 100 0 12). split; [simpl; auto|reflexivity].
Defined.

(** X4. A message for an identity that is not in the store: with
    Health <= 0 the store is left as it is; with Health > 0 one unit
    carrying the message's BID, PID, X, Y and Health is appended after the
    units already there. *)
Theorem InsertUpdateBot_absent (gdb : GameDatabase.t) (m : BotMsg.t) :
  (forall bot, In bot (GameDatabase.Bots gdb) -> same_bot m bot = false) ->
  InsertUpdateBot gdb m =
  if BotMsg.Health m <=? 0 then gdb
  else GameDatabase.mk (GameDatabase.Bots gdb ++ [new_bot m])
         (GameDatabase.PID gdb).
Proof.
  intros Hn. destruct gdb as [bots pid]. simpl in *. unfold InsertUpdateBot.
  simpl. destruct (BotMsg.Health m <=? 0).
  - now rewrite remove_bot_absent.
  - now rewrite (proj2 (update_bot_none m bots) Hn).
Qed.

Lemma InsertUpdateBot_absent_witness :
  let gdb := GameDatabase.mk [GDBBot.mk 1 1 0 0 12] 1 in
  let m := BotMsg.mk 2 1 100 0 12 false 0 0 0 false in
  InsertUpdateBot gdb m =
  GameDatabase.mk [GDBBot.mk 1 1 0 0 12; GDBBot.mk 1 2 100 0 12] 1.
Proof.
  apply (InsertUpdateBot_absent
           (GameDatabase.mk [GDBBot.mk 1 1 0 0 12] 1)
           (BotMsg.mk 2 1 100 0 12 false 0 0 0 false)).
  intros bot [<-|[]]. reflexivity.
Defined.

(** * Further properties of the message loop *)

Lemma processMsg_gdb (queueItem : MsgQueueItem.t) (s : Session.t) :
  Session.gdb (fst (processMsg queueItem s)) =
  store_after (Session.gdb s) queueItem.
Proof.
  unfold processMsg, store_after, is_ready, is_bot, line_type, ready_of,
    bot_of, committed.
  destruct (MsgQueueItem.Err queueItem); simpl; [reflexivity|].
  destruct (Unmarshal.err (Json.toMsg (MsgQueueItem.Msg queueItem))); simpl;
    [reflexivity|].
  destruct (Msg.Type' (Unmarshal.into (Json.toMsg (MsgQueueItem.Msg queueItem)))
            =? "READY")%string; simpl.
  - destruct (Unmarshal.err (Json.toReadyMsg (MsgQueueItem.Msg queueItem)));
      reflexivity.
  - destruct (Msg.Type'
                (Unmarshal.into (Json.toMsg (MsgQueueItem.Msg queueItem)))
              =? "BOT")%string; simpl.
    + destruct (Unmarshal.err (Json.toBotMsg (MsgQueueItem.Msg queueItem)));
        reflexivity.
    + reflexivity.
Qed.

Lemma processMsgs_cons (queueItem : MsgQueueItem.t)
  (rest : list MsgQueueItem.t) (s : Session.t) :
  processMsgs (queueItem :: rest) s =
  if undecodable queueItem
  then (fst (processMsg queueItem s), Left rest)
  else processMsgs rest (fst (processMsg queueItem s)).
Proof.
  simpl. pose proof (processMsg_next queueItem s) as Hn.
  destruct (processMsg queueItem s) as [s' next]. simpl in *.
  destruct (undecodable queueItem); now subst next.
Qed.

Lemma undecodable_not_bot (queueItem : MsgQueueItem.t) :
  undecodable queueItem = true -> is_bot queueItem = false.
Proof.
  unfold undecodable, is_bot, line_type.
  destruct (MsgQueueItem.Err queueItem); simpl; [reflexivity|].
  now intros ->.
Qed.

Lemma processMsgs_gdb (queue : list MsgQueueItem.t) :
  forall s,
    Session.gdb (fst (processMsgs queue s)) =
    fold_left store_after (handled queue) (Session.gdb s).
Proof.
  induction queue as [|queueItem rest IH]; intros s; [reflexivity|].
  rewrite processMsgs_cons. simpl handled.
  destruct (undecodable queueItem) eqn:Hu; simpl.
  - now rewrite processMsg_gdb.
  - now rewrite IH, processMsg_gdb.
Qed.

Lemma processMsgs_snd (queue : list MsgQueueItem.t) :
  forall s, snd (processMsgs queue s) = loop_after queue.
Proof.
  induction queue as [|queueItem rest IH]; intros s; [reflexivity|].
  rewrite processMsgs_cons. simpl.
  destruct (undecodable queueItem); [reflexivity|apply IH].
Qed.

(** X5. The loop is left exactly at the first line that cannot be
    unmarshalled into Msg, with every line behind it unread; a queue
    without such a line is read to its end and the loop keeps receiving,
    whatever read errors, failed typed decodes and unknown types it holds. *)
Theorem processMsgs_loop (queue : list MsgQueueItem.t) (s : Session.t) :
  snd (processMsgs queue s) = loop_after queue.
Proof. apply processMsgs_snd. Qed.


Lemma InsertUpdateBot_keeps_alive (gdb : GameDatabase.t) (m : BotMsg.t) :
  all_alive gdb -> all_alive (InsertUpdateBot gdb m).
Proof.
  unfold all_alive. destruct gdb as [bots pid]. simpl. intros IH.
  unfold InsertUpdateBot. simpl.
  destruct (BotMsg.Health m <=? 0) eqn:Hh; simpl.
  - rewrite Forall_forall in *. intros x Hx. apply IH.
    eapply remove_bot_incl; eauto.
  - assert (Hpos : 0 < BotMsg.Health m) by lia. clear Hh.
    destruct (update_bot m bots) as [bots'|] eqn:E; simpl.
    + revert bots' E. induction bots as [|bot rest IHb]; simpl; intros bots' E.
      * discriminate.
      * inversion IH as [|? ? Hbot Hrest]; subst.
        destruct (same_bot m bot).
        -- inversion E; subst. constructor; [exact Hpos|exact Hrest].
        -- destruct (update_bot m rest) as [r|]; simpl in E; [|discriminate].
           inversion E; subst. constructor; [exact Hbot|]. now apply IHb.
    + apply Forall_app. split; [exact IH|].
      constructor; [exact Hpos|constructor].
Qed.

Lemma apply_events_keeps_alive (evs : list BotMsg.t) :
  forall gdb, all_alive gdb -> all_alive (apply_events gdb evs).
Proof.
  induction evs as [|m evs IH]; intros gdb H; [exact H|].
  apply (IH (InsertUpdateBot gdb m)). now apply InsertUpdateBot_keeps_alive.
Qed.

Lemma store_after_keeps (gdb : GameDatabase.t) (queueItem : MsgQueueItem.t) :
  unique_ids gdb /\ all_alive gdb ->
  unique_ids (store_after gdb queueItem) /\
  all_alive (store_after gdb queueItem).
Proof.
  intros [Hu Ha]. unfold store_after, committed.
  destruct (is_ready queueItem).
  - split.
    + apply apply_events_unique. exact Hu.
    + apply apply_events_keeps_alive. exact Ha.
  - destruct (is_bot queueItem); [|now split].
    split.
    + now apply InsertUpdateBot_keeps_unique.
    + now apply InsertUpdateBot_keeps_alive.
Qed.

(** X7. Whatever the queue holds, the store the message loop builds from
    the start of a session never holds two units of one identity and never
    holds a unit with Health <= 0. *)
Theorem processMsgs_store_invariants (queue : list MsgQueueItem.t) :
  unique_ids (Session.gdb (fst (processMsgs queue Session.start))) /\
  all_alive (Session.gdb (fst (processMsgs queue Session.start))).
Proof.
  rewrite processMsgs_gdb.
  assert (H : unique_ids (Session.gdb Session.start) /\
              all_alive (Session.gdb Session.start)).
  { split; constructor. }
  revert H. generalize (Session.gdb Session.start).
  induction (handled queue) as [|queueItem rest IH]; intros gdb H;
    [exact H|].
  simpl. apply IH. now apply store_after_keeps.
Qed.

Lemma is_bot_not_ready (queueItem : MsgQueueItem.t) :
  is_bot queueItem = true ->
  is_ready queueItem = false /\ undecodable queueItem = false.
Proof.
  unfold is_bot, is_ready, undecodable, line_type.
  destruct (MsgQueueItem.Err queueItem); simpl; [discriminate|].
  destruct (Unmarshal.err (Json.toMsg (MsgQueueItem.Msg queueItem))); simpl;
    [discriminate|].
  destruct (Msg.Type' (Unmarshal.into (Json.toMsg (MsgQueueItem.Msg queueItem)))
            =? "READY")%string; simpl; [discriminate|auto].
Qed.

Lemma handled_all (queue : list MsgQueueItem.t) :
  Forall (fun queueItem => undecodable queueItem = false) queue ->
  handled queue = queue /\ loop_after queue = Receiving.
Proof.
  induction 1 as [|queueItem rest Hu _ [IHh IHl]]; simpl; [auto|].
  rewrite Hu, IHh. auto.
Qed.

Lemma processMsgs_no_ready (queue : list MsgQueueItem.t) :
  Forall (fun queueItem => is_ready queueItem = false) queue ->
  forall s,
    Session.strategies (fst (processMsgs queue s)) = Session.strategies s.
Proof.
  induction 1 as [|queueItem rest Hr _ IH]; intros s; [reflexivity|].
  rewrite processMsgs_cons.
  pose proof (processMsg_strategies queueItem s) as Hs.
  rewrite Hr, app_nil_r in Hs.
  destruct (undecodable queueItem); simpl; [exact Hs|].
  now rewrite IH.
Qed.

(** X8. A queue of lines of type BOT is applied to the store in the order
    of arrival, each line by one InsertUpdateBot of what its decode left;
    the loop starts no strategy, keeps the store's PID and goes on
    receiving. *)
Theorem processMsgs_bot_lines (queue : list MsgQueueItem.t) (s : Session.t) :
  Forall (fun queueItem => is_bot queueItem = true) queue ->
  Session.gdb (fst (processMsgs queue s)) =
  apply_events (Session.gdb s) (map bot_of queue) /\
  Session.strategies (fst (processMsgs queue s)) = Session.strategies s /\
  snd (processMsgs queue s) = Receiving.
Proof.
  intros Hb.
  assert (Hu : Forall (fun i => undecodable i = false) queue).
  { eapply Forall_impl; [|exact Hb]. intros i Hi.
    now apply is_bot_not_ready in Hi. }
  assert (Hr : Forall (fun i => is_ready i = false) queue).
  { eapply Forall_impl; [|exact Hb]. intros i Hi.
    now apply is_bot_not_ready in Hi. }
  destruct (handled_all queue Hu) as [Hh Hrecv].
  split; [|split].
  - rewrite processMsgs_gdb, Hh. clear Hu Hr Hh Hrecv.
    generalize (Session.gdb s).
    induction Hb as [|i rest Hi _ IH]; intros gdb; [reflexivity|].
    simpl. unfold store_after at 2.
    destruct (is_bot_not_ready _ Hi) as [-> _]. rewrite Hi. apply IH.
  - now apply processMsgs_no_ready.
  - now rewrite processMsgs_snd.
Qed.

Lemma processMsgs_bot_lines_witness :
  let b1 := BotMsg.mk 2 1 100 0 12 false 0 0 0 false in
  let b2 := BotMsg.mk 2 1 90 0 7 false 0 0 0 false in
  let queue := [bot_line b1; bot_line b2] in
  Session.gdb (fst (processMsgs queue Session.start)) =
  apply_events GameDatabase.empty (map bot_of queue) /\
  Session.strategies (fst (processMsgs queue Session.start)) = [] /\
  snd (processMsgs queue Session.start) = Receiving.
Proof.
  apply (processMsgs_bot_lines
           [bot_line (BotMsg.mk 2 1 100 0 12 false 0 0 0 false);
            bot_line (BotMsg.mk 2 1 90 0 7 false 0 0 0 false)]
           Session.start).
  repeat constructor.
Defined.

(** X9. Lines that are neither of type READY nor of type BOT (read
    errors, undecodable lines, unknown types) change neither the store nor
    the strategies started: they only add to the log. *)
Theorem processMsgs_other_lines (queue : list MsgQueueItem.t) (s : Session.t) :
  Forall (fun queueItem =>
            is_ready queueItem = false /\ is_bot queueItem = false) queue ->
  Session.gdb (fst (processMsgs queue s)) = Session.gdb s /\
  Session.strategies (fst (processMsgs queue s)) = Session.strategies s.
Proof.
  intros H. split.
  - rewrite processMsgs_gdb. generalize (Session.gdb s).
    assert (Hh : Forall (fun i => is_ready i = false /\ is_bot i = false)
                   (handled queue)).
    { induction H as [|i rest Hi _ IH]; simpl; [constructor|].
      destruct (undecodable i); constructor; auto. }
    induction Hh as [|i rest [Hr Hb] _ IH]; intros gdb; [reflexivity|].
    simpl. unfold store_after at 2. rewrite Hr, Hb. apply IH.
  - apply processMsgs_no_ready. eapply Forall_impl; [|exact H].
    now intros i [Hr _].
Qed.

Lemma processMsgs_other_lines_witness :
  let unknown :=
    MsgQueueItem.mk
      (Json.mk (Unmarshal.mk (Msg.mk "SCORE") false)
         (Unmarshal.mk (ReadyMsg.mk 0 []) false)
         (Unmarshal.mk BotMsg.zero false))
      false in
  let read_error := MsgQueueItem.mk (MsgQueueItem.Msg garbage_line) true in
  let s := Session.mk tie_store [] [] in
  Session.gdb (fst (processMsgs [unknown; read_error; unknown] s)) =
  Session.gdb s /\
  Session.strategies (fst (processMsgs [unknown; read_error; unknown] s)) =
  Session.strategies s.
Proof.
  apply processMsgs_other_lines. repeat constructor.
Defined.

Lemma store_after_PID (gdb : GameDatabase.t) (queueItem : MsgQueueItem.t) :
  GameDatabase.PID (store_after gdb queueItem) =
  if is_ready queueItem then ReadyMsg.PID (ready_of queueItem)
  else GameDatabase.PID gdb.
Proof.
  unfold store_after, committed. destruct (is_ready queueItem).
  - now rewrite apply_events_PID.
  - destruct (is_bot queueItem); [apply InsertUpdateBot_PID|reflexivity].
Qed.

(** X10. The store's PID after any queue is the PID of the last READY
    line the loop got to, and the PID it had before when there was none:
    no other line and no InsertUpdateBot changes it. *)
Theorem processMsgs_PID (queue : list MsgQueueItem.t) (s : Session.t) :
  GameDatabase.PID (Session.gdb (fst (processMsgs queue s))) =
  match last_ready queue with
  | Some queueItem => ReadyMsg.PID (ready_of queueItem)
  | None => GameDatabase.PID (Session.gdb s)
  end.
Proof.
  rewrite processMsgs_gdb. unfold last_ready.
  induction (handled queue) as [|queueItem rest IH] using rev_ind;
    [reflexivity|].
  rewrite fold_left_app, rev_app_distr. simpl.
  rewrite store_after_PID. destruct (is_ready queueItem); [reflexivity|].
  exact IH.
Qed.

(** * Further properties of the strategies *)

(** ** Pointers come in store order *)

Lemma pointers_from_sorted (keep : GDBBot.t -> bool) (bots : list GDBBot.t) :
  forall i, StronglySorted lt (pointers_from keep i bots).
Proof.
  induction bots as [|bot rest IH]; intros i; simpl; [constructor|].
  destruct (keep bot); [|apply IH].
  constructor; [apply IH|].
  apply Forall_forall. intros p Hp.
  apply pointers_from_kept in Hp as [Hle _]. lia.
Qed.

Lemma pointers_from_bound (keep : GDBBot.t -> bool) (bots : list GDBBot.t) :
  forall i p,
    In p (pointers_from keep i bots) -> (p < i + List.length bots)%nat.
Proof.
  induction bots as [|bot rest IH]; intros i p; simpl; [intros []|].
  destruct (keep bot).
  - intros [<-|Hin]; [lia|]. apply IH in Hin. lia.
  - intros Hin. apply IH in Hin. lia.
Qed.

(** X11. MyBots and TheirBots list their pointers in the order of the
    store, each pointer once, and every pointer points at a unit of the
    store. *)
Theorem MyBots_TheirBots_in_store_order (gdb : GameDatabase.t) :
  StronglySorted lt (MyBots gdb) /\
  StronglySorted lt (TheirBots gdb) /\
  (forall p, In p (MyBots gdb) \/ In p (TheirBots gdb) ->
     (p < List.length (GameDatabase.Bots gdb))%nat).
Proof.
  repeat split; try apply pointers_from_sorted.
  intros p [H|H]; apply pointers_from_bound in H; exact H.
Qed.

(** ** Distances *)

Lemma shr_1_nonneg (mrs : shr_record) :
  0 <= shr_m mrs -> 0 <= shr_m (shr_1 mrs).
Proof.
  destruct mrs as [m r s]. simpl. destruct m as [|p|p]; simpl.
  - lia.
  - destruct p; simpl; lia.
  - lia.
Qed.

Lemma iter_shr_1_nonneg (p : positive) :
  forall mrs, 0 <= shr_m mrs -> 0 <= shr_m (iter_pos shr_1 p mrs).
Proof.
  induction p as [p IH|p IH|]; intros mrs H; simpl.
  - apply IH, IH, shr_1_nonneg, H.
  - apply IH, IH, H.
  - apply shr_1_nonneg, H.
Qed.

Lemma shr_fexp_nonneg (prec emax m e : Z) (l : location) :
  0 <= m -> 0 <= shr_m (fst (shr_fexp prec emax m e l)).
Proof.
  intros H. unfold shr_fexp, shr.
  assert (H0 : 0 <= shr_m (shr_record_of_loc m l)).
  { destruct l as [|[]]; exact H. }
  destruct (fexp prec emax (Zdigits2 m + e) - e); simpl; try exact H0.
  now apply iter_shr_1_nonneg.
Qed.

Lemma round_nearest_even_nonneg (m : Z) (l : location) :
  0 <= m -> 0 <= round_nearest_even m l.
Proof.
  intros H. destruct l as [|[]]; simpl; try lia.
  destruct (Z.even m); lia.
Qed.

Lemma binary_round_aux_nonneg (prec emax m e : Z) (l : location) :
  0 <= m -> nonneg (binary_round_aux prec emax false m e l) = true.
Proof.
  intros H. unfold binary_round_aux.
  pose proof (shr_fexp_nonneg prec emax m e l H) as H1.
  destruct (shr_fexp prec emax m e l) as [mrs' e']. simpl in H1.
  pose proof (shr_fexp_nonneg prec emax
                (round_nearest_even (shr_m mrs') (loc_of_shr_record mrs'))
                e' loc_Exact
                (round_nearest_even_nonneg _ _ H1)) as H2.
  destruct (shr_fexp prec emax _ e' loc_Exact) as [mrs'' e'']. simpl in H2.
  destruct (shr_m mrs'') as [|p|p]; [reflexivity| |lia].
  now destruct (e'' <=? emax - prec).
Qed.

Lemma binary_round_aux_not_nan (prec emax : Z) (s : bool) (m e : Z)
  (l : location) :
  0 <= m -> binary_round_aux prec emax s m e l <> S754_nan.
Proof.
  intros H. unfold binary_round_aux.
  pose proof (shr_fexp_nonneg prec emax m e l H) as H1.
  destruct (shr_fexp prec emax m e l) as [mrs' e']. simpl in H1.
  pose proof (shr_fexp_nonneg prec emax
                (round_nearest_even (shr_m mrs') (loc_of_shr_record mrs'))
                e' loc_Exact
                (round_nearest_even_nonneg _ _ H1)) as H2.
  destruct (shr_fexp prec emax _ e' loc_Exact) as [mrs'' e'']. simpl in H2.
  destruct (shr_m mrs'') as [|p|p]; [discriminate| |lia].
  now destruct (e'' <=? emax - prec).
Qed.

Lemma float64_of_int_not_nan (z : Z) : float64_of_int z <> S754_nan.
Proof.
  unfold float64_of_int, binary_normalize. destruct z as [|p|p].
  - discriminate.
  - unfold binary_round. destruct (shl_align _ _ _) as [mz ez].
    apply binary_round_aux_not_nan. lia.
  - unfold binary_round. destruct (shl_align _ _ _) as [mz ez].
    apply binary_round_aux_not_nan. lia.
Qed.

Lemma pow2_nonneg (x : float64) : x <> S754_nan -> nonneg (pow2 x) = true.
Proof.
  intros H. unfold pow2, fmul, SFmul. destruct x as [s|s| |s m e].
  - now destruct s.
  - now destruct s.
  - congruence.
  - replace (xorb s s) with false by now destruct s.
    apply binary_round_aux_nonneg. lia.
Qed.

Lemma fadd_nonneg (x y : float64) :
  nonneg x = true -> nonneg y = true -> nonneg (fadd x y) = true.
Proof.
  unfold fadd, SFadd.
  destruct x as [sx|sx| |sx mx ex], y as [sy|sy| |sy my ey]; simpl;
    try discriminate; try (destruct sx; try discriminate);
    try (destruct sy; try discriminate); try reflexivity.
  intros _ _. simpl. unfold binary_round.
  destruct (shl_align _ _ _) as [mz ez].
  apply binary_round_aux_nonneg. lia.
Qed.

Lemma fsqrt_nonneg (x : float64) : nonneg x = true -> nonneg (fsqrt x) = true.
Proof.
  unfold fsqrt, SFsqrt. destruct x as [s|s| |s m e]; simpl;
    try discriminate; try (destruct s; try discriminate); try reflexivity.
  intros _. unfold SFsqrt_core_binary.
  set (m' := match _ - 2 * _ with Z0 => _ | Zpos _ => _ | Zneg _ => _ end).
  assert (Hm : 0 <= m').
  { subst m'. destruct (_ - 2 * _); try lia. apply Z.shiftl_nonneg. lia. }
  pose proof (Z.sqrtrem_spec m' Hm) as Hs.
  destruct (Z.sqrtrem m') as [q r].
  apply binary_round_aux_nonneg. lia.
Qed.

Lemma distance_is_nonneg (xa ya xb yb : Z) :
  nonneg (distance xa ya xb yb) = true.
Proof.
  unfold distance. apply fsqrt_nonneg, fadd_nonneg;
    apply pow2_nonneg, float64_of_int_not_nan.
Qed.

Lemma nonneg_not_nan (f : float64) : nonneg f = true -> f <> S754_nan.
Proof. destruct f; simpl; congruence. Qed.

(** X12. Whatever the four coordinates, distance never yields NaN and
    never a number below zero: no distance is less than zero, and the
    distance from a point to itself is zero. *)
Theorem distance_never_negative (xa ya xb yb : Z) :
  distance xa ya xb yb <> S754_nan /\
  flt (distance xa ya xb yb) (S754_zero false) = false /\
  distance xa ya xa ya = S754_zero false.
Proof.
  pose proof (distance_is_nonneg xa ya xb yb) as H. repeat split.
  - now apply nonneg_not_nan.
  - destruct (distance xa ya xb yb) as [s|s| |s m e]; simpl in *;
      try reflexivity; destruct s; simpl in *; try discriminate; reflexivity.
  - unfold distance. rewrite !Z.sub_diag. reflexivity.
Qed.

(** ** The order of float64 *)

Ltac float_order :=
  unfold flt, SFltb, SFcompare;
  repeat match goal with
         | x : float64 |- _ => destruct x as [[]|[]| |[] ? ?]
         end;
  try reflexivity; try discriminate; try congruence;
  repeat match goal with
         | |- context [Z.compare ?x ?y] => destruct (Z.compare_spec x y)
         | |- context [Pos.compare_cont Eq ?x ?y] =>
             change (Pos.compare_cont Eq x y) with (Pos.compare x y);
             destruct (Pos.compare_spec x y)
         end;
  simpl; try reflexivity; try discriminate; try congruence; try lia.

Lemma flt_trans (a b c : float64) :
  flt a b = true -> flt b c = true -> flt a c = true.
Proof. float_order. Qed.

Lemma flt_asym (a b : float64) : flt a b = true -> flt b a = false.
Proof. float_order. Qed.

Lemma flt_below (a b c : float64) :
  a <> S754_nan -> flt b c = true -> flt a c = false -> flt b a = true.
Proof. float_order. Qed.

(** ** Variant A: the lowest health and the target *)

Lemma low_fold (gdb : GameDatabase.t) (l : list nat) :
  forall init,
    let low :=
      fold_left
        (fun low p => if health gdb p <? low then health gdb p else low)
        l init in
    low <= init /\
    (forall p, In p l -> low <= health gdb p) /\
    (low = init \/ exists p, In p l /\ low = health gdb p).
Proof.
  induction l as [|e rest IH]; intros init; simpl.
  - repeat split; [lia|intros p []|now left].
  - destruct (IH (if health gdb e <? init then health gdb e else init))
      as [Hle [Hall Hatt]].
    destruct (health gdb e <? init) eqn:E.
    + apply Z.ltb_lt in E. repeat split.
      * lia.
      * intros p [<-|Hp]; [exact Hle|now apply Hall].
      * right. destruct Hatt as [->|[p [Hp Hl]]]; [exists e; auto|].
        exists p. auto.
    + apply Z.ltb_ge in E. repeat split.
      * exact Hle.
      * intros p [<-|Hp]; [lia|now apply Hall].
      * destruct Hatt as [->|[p [Hp Hl]]]; [now left|].
        right. exists p. auto.
Qed.

Lemma lowHealth_facts (gdb : GameDatabase.t) (l : list nat) :
  RecklessAbandon.lowHealth gdb l <= MaxHealth /\
  (forall p, In p l -> RecklessAbandon.lowHealth gdb l <= health gdb p) /\
  (RecklessAbandon.lowHealth gdb l = MaxHealth \/
   exists p, In p l /\ RecklessAbandon.lowHealth gdb l = health gdb p).
Proof. apply (low_fold gdb l MaxHealth). Qed.

Lemma weakBots_nil (gdb : GameDatabase.t) :
  RecklessAbandon.weakBots gdb = [] <->
  forall p, In p (TheirBots gdb) -> MaxHealth < health gdb p.
Proof.
  unfold RecklessAbandon.weakBots.
  destruct (lowHealth_facts gdb (TheirBots gdb)) as [Hle [Hall Hatt]].
  split.
  - intros Hnil p Hp.
    pose proof (filter_nil_none _ _ Hnil) as Hno.
    destruct Hatt as [Hmax|[q [Hq Hl]]].
    + specialize (Hno p Hp). simpl in Hno. apply Z.eqb_neq in Hno.
      specialize (Hall p Hp). unfold health in *. lia.
    + specialize (Hno q Hq). simpl in Hno. apply Z.eqb_neq in Hno.
      unfold health in *. congruence.
  - intros Hbig. apply filter_none. intros p Hp. apply Z.eqb_neq.
    specialize (Hbig p Hp). unfold health in *. lia.
Qed.

Lemma loopBody_returned (gdb : GameDatabase.t) :
  RecklessAbandon.loopBody gdb = Returned <->
  RecklessAbandon.weakBots gdb = [].
Proof.
  unfold RecklessAbandon.loopBody, RecklessAbandon.chooseTarget,
    RecklessAbandon.chooseWith.
  destruct (RecklessAbandon.weakBots gdb) as [|first [|second rest]].
  - split; reflexivity.
  - split; discriminate.
  - destruct (MyBots gdb); split; discriminate.
Qed.

(** X13. A pass of variant A returns exactly when every opposing unit of
    the store has a health above MaxHealth; with no opposing unit that is
    always so, and with opposing units that all report more than 12 the
    loop ends although they are there. *)
Theorem reckless_abandon_returns_iff (gdb : GameDatabase.t) :
  RecklessAbandon.loopBody gdb = Returned <->
  forall p, In p (TheirBots gdb) -> MaxHealth < health gdb p.
Proof. rewrite loopBody_returned. apply weakBots_nil. Qed.

(** X14. A pass of variant A panics, on the division by the number of
    our bots, exactly when we have no bot in the store and two or more
    opposing units tie at the lowest health; nothing has been sent by
    then. *)
Theorem reckless_abandon_panics_iff (gdb : GameDatabase.t) :
  (exists sent, RecklessAbandon.loopBody gdb = Panicked sent) <->
  MyBots gdb = [] /\
  (2 <= List.length (RecklessAbandon.weakBots gdb))%nat.
Proof.
  unfold RecklessAbandon.loopBody, RecklessAbandon.chooseTarget,
    RecklessAbandon.chooseWith.
  destruct (RecklessAbandon.weakBots gdb) as [|first [|second rest]]; simpl.
  - split; [intros [sent H]; discriminate|intros [_ H]; lia].
  - split; [intros [sent H]; discriminate|intros [_ H]; lia].
  - destruct (MyBots gdb) as [|m ms].
    + split; [intros _; split; [reflexivity|lia]|eauto].
    + split; [intros [sent H]; discriminate|intros [H _]; discriminate].
Qed.

Lemma filter_head {A} (f : A -> bool) (l : list A) (t : A) (rest : list A) :
  filter f l = t :: rest ->
  exists pre post,
    l = pre ++ t :: post /\ f t = true /\
    (forall x, In x pre -> f x = false).
Proof.
  induction l as [|a l IH]; simpl; [discriminate|].
  destruct (f a) eqn:E.
  - intros H. inversion H; subst. exists [], l. simpl.
    repeat split; [assumption|intros x []].
  - intros H. destruct (IH H) as [pre [post [Hl [Ht Hpre]]]].
    exists (a :: pre), post. simpl. repeat split.
    + now rewrite Hl.
    + assumption.
    + intros x [<-|Hx]; auto.
Qed.

Lemma chooseTarget_head (gdb : GameDatabase.t) (t : nat) :
  RecklessAbandon.chooseTarget gdb = RecklessAbandon.Chosen t ->
  exists rest, RecklessAbandon.weakBots gdb = t :: rest.
Proof.
  unfold RecklessAbandon.chooseTarget, RecklessAbandon.chooseWith.
  destruct (RecklessAbandon.weakBots gdb) as [|first [|second rest]].
  - discriminate.
  - intros H. inversion H. eauto.
  - destruct (MyBots gdb) as [|m ms]; [discriminate|].
    rewrite closest_stays. intros H. inversion H. eauto.
Qed.

(** X15. The target variant A chooses is the first opposing unit, in
    store order, of the lowest health among the opposing units: every
    opposing unit before it has a higher health, none after it has a lower
    one, its health is at most MaxHealth, and the positions of the bots
    play no part. *)
Theorem reckless_abandon_target (gdb : GameDatabase.t) (t : nat) :
  RecklessAbandon.chooseTarget gdb = RecklessAbandon.Chosen t ->
  exists pre post,
    TheirBots gdb = pre ++ t :: post /\
    health gdb t <= MaxHealth /\
    (forall p, In p pre -> health gdb t < health gdb p) /\
    (forall p, In p post -> health gdb t <= health gdb p).
Proof.
  intros H. apply chooseTarget_head in H as [rest Hw].
  unfold RecklessAbandon.weakBots in Hw.
  apply filter_head in Hw as [pre [post [Hl [Ht Hpre]]]].
  destruct (lowHealth_facts gdb (TheirBots gdb)) as [Hle [Hall _]].
  apply Z.eqb_eq in Ht. fold (health gdb t) in Ht.
  exists pre, post. repeat split.
  - exact Hl.
  - lia.
  - intros p Hp. specialize (Hpre p Hp). simpl in Hpre.
    apply Z.eqb_neq in Hpre. fold (health gdb p) in Hpre.
    assert (Hin : In p (TheirBots gdb))
      by (rewrite Hl; apply in_or_app; now left).
    specialize (Hall p Hin). lia.
  - intros p Hp.
    assert (Hin : In p (TheirBots gdb))
      by (rewrite Hl; apply in_or_app; right; now right).
    specialize (Hall p Hin). lia.
Qed.

Lemma reckless_abandon_target_witness :
  exists pre post,
    TheirBots tie_store = pre ++ 1%nat :: post /\
    health tie_store 1 <= MaxHealth /\
    (forall p, In p pre -> health tie_store 1 < health tie_store p) /\
    (forall p, In p post -> health tie_store 1 <= health tie_store p).
Proof. apply reckless_abandon_target. reflexivity. Defined.

(** ** Variants B and C: the nearest opposing unit *)

Lemma dist_to_not_nan (gdb : GameDatabase.t) (x y : Z) (p : nat) :
  dist_to gdb x y p <> S754_nan.
Proof. apply nonneg_not_nan, distance_is_nonneg. Qed.

Lemma closestEnemy_scan (gdb : GameDatabase.t) (bot : GDBBot.t)
  (d : nat -> float64) :
  d = dist_to gdb (GDBBot.X bot) (GDBBot.Y bot) ->
  forall l target,
    (DangerNoodle.closestEnemy gdb bot l target (d target) = target /\
     forall e, In e l -> flt (d e) (d target) = false) \/
    (exists pre post,
       l = pre ++ DangerNoodle.closestEnemy gdb bot l target (d target)
                  :: post /\
       flt (d (DangerNoodle.closestEnemy gdb bot l target (d target)))
         (d target) = true /\
       (forall e, In e pre ->
          flt (d (DangerNoodle.closestEnemy gdb bot l target (d target)))
            (d e) = true) /\
       (forall e, In e post ->
          flt (d e)
            (d (DangerNoodle.closestEnemy gdb bot l target (d target))) =
          false)).
Proof.
  intros Hd. induction l as [|e rest IH]; intros target; simpl.
  - left. split; [reflexivity|intros e []].
  - change (distance (GDBBot.X bot) (GDBBot.Y bot)
              (GDBBot.X (deref gdb e)) (GDBBot.Y (deref gdb e)))
      with (dist_to gdb (GDBBot.X bot) (GDBBot.Y bot) e).
    rewrite <- Hd.
    destruct (flt (d e) (d target)) eqn:E.
    + right.
      destruct (IH e) as [[Ht Hall]|[pre [post [Hl [Hlt [Hpre Hpost]]]]]].
      * rewrite Ht. exists [], rest. simpl.
        repeat split; [exact E|intros x []|exact Hall].
      * exists (e :: pre), post. simpl. repeat split.
        -- now rewrite Hl at 1.
        -- eapply flt_trans; eauto.
        -- intros x [<-|Hx]; auto.
        -- exact Hpost.
    + destruct (IH target)
        as [[Ht Hall]|[pre [post [Hl [Hlt [Hpre Hpost]]]]]].
      * left. split; [exact Ht|]. intros x [<-|Hx]; auto.
      * right. exists (e :: pre), post. simpl. repeat split.
        -- now rewrite Hl at 1.
        -- exact Hlt.
        -- intros x [<-|Hx]; [|auto].
           apply (flt_below _ _ (d target));
             [rewrite Hd; apply dist_to_not_nan| |]; assumption.
        -- exact Hpost.
Qed.

(** X16. The lead bot of variant B targets the nearest opposing unit,
    the first of them in store order when several are as near: every
    opposing unit before the target is farther from the lead bot than the
    target, and no opposing unit at all is nearer. *)
Theorem danger_noodle_targets_nearest (gdb : GameDatabase.t) (bot : GDBBot.t)
  (first : nat) (others : list nat) :
  let d := dist_to gdb (GDBBot.X bot) (GDBBot.Y bot) in
  let t :=
    DangerNoodle.closestEnemy gdb bot (first :: others) first (d first) in
  exists pre post,
    first :: others = pre ++ t :: post /\
    (forall e, In e pre -> flt (d t) (d e) = true) /\
    (forall e, In e (first :: others) -> flt (d e) (d t) = false).
Proof.
  intros d t. subst t.
  destruct (closestEnemy_scan gdb bot d eq_refl (first :: others) first)
    as [[Ht Hall]|[pre [post [Hl [Hlt [Hpre Hpost]]]]]].
  - exists [], others. rewrite Ht. simpl. repeat split; [intros e []|].
    exact Hall.
  - exists pre, post. repeat split; [exact Hl|exact Hpre|].
    intros e He. rewrite Hl in He. apply in_app_or in He as [He|[<-|He]].
    + apply flt_asym. now apply Hpre.
    + apply flt_irrefl.
    + now apply Hpost.
Qed.

Lemma nearestEnemy_scan (gdb : GameDatabase.t) (centerBot : GDBBot.t)
  (d : nat -> float64) :
  d = dist_to gdb (GDBBot.X centerBot) (GDBBot.Y centerBot) ->
  forall l closeBot closeDist,
    (DeathStar.nearestEnemy gdb centerBot l closeBot closeDist = closeBot /\
     forall e, In e l -> flt (d e) closeDist = false) \/
    (exists pre t post,
       DeathStar.nearestEnemy gdb centerBot l closeBot closeDist = Some t /\
       l = pre ++ t :: post /\
       flt (d t) closeDist = true /\
       (forall e, In e pre -> flt (d t) (d e) = true) /\
       (forall e, In e post -> flt (d e) (d t) = false)).
Proof.
  intros Hd. induction l as [|e rest IH]; intros closeBot closeDist; simpl.
  - left. split; [reflexivity|intros e []].
  - change (distance (GDBBot.X centerBot) (GDBBot.Y centerBot)
              (GDBBot.X (deref gdb e)) (GDBBot.Y (deref gdb e)))
      with (dist_to gdb (GDBBot.X centerBot) (GDBBot.Y centerBot) e).
    rewrite <- Hd.
    destruct (flt (d e) closeDist) eqn:E.
    + right.
      destruct (IH (Some e) (d e))
        as [[Hr Hall]|[pre [t [post [Hr [Hl [Hlt [Hpre Hpost]]]]]]]].
      * exists [], e, rest. simpl.
        repeat split; [exact Hr|exact E|intros x []|exact Hall].
      * exists (e :: pre), t, post. simpl. repeat split.
        -- exact Hr.
        -- now rewrite Hl.
        -- eapply flt_trans; eauto.
        -- intros x [<-|Hx]; auto.
        -- exact Hpost.
    + destruct (IH closeBot closeDist)
        as [[Hr Hall]|[pre [t [post [Hr [Hl [Hlt [Hpre Hpost]]]]]]]].
      * left. split; [exact Hr|]. intros x [<-|Hx]; auto.
      * right. exists (e :: pre), t, post. simpl. repeat split.
        -- exact Hr.
        -- now rewrite Hl.
        -- exact Hlt.
        -- intros x [<-|Hx]; [|auto].
           apply (flt_below _ _ closeDist);
             [rewrite Hd; apply dist_to_not_nan| |]; assumption.
        -- exact Hpost.
Qed.

(** X17. The unit variant C has all its bots target is the opposing unit
    nearest to the centre bot, the first of them in store order when
    several are as near; the pointer stays nil only when no opposing unit
    is nearer than MaxFloat64. *)
Theorem death_star_targets_nearest (gdb : GameDatabase.t)
  (centerBot : GDBBot.t) (theirBots : list nat) :
  let d := dist_to gdb (GDBBot.X centerBot) (GDBBot.Y centerBot) in
  match DeathStar.nearestEnemy gdb centerBot theirBots None MaxFloat64 with
  | None => forall e, In e theirBots -> flt (d e) MaxFloat64 = false
  | Some t =>
      exists pre post,
        theirBots = pre ++ t :: post /\
        (forall e, In e pre -> flt (d t) (d e) = true) /\
        (forall e, In e theirBots -> flt (d e) (d t) = false)
  end.
Proof.
  intros d.
  destruct (nearestEnemy_scan gdb centerBot d eq_refl theirBots None
              MaxFloat64)
    as [[Hr Hall]|[pre [t [post [Hr [Hl [Hlt [Hpre Hpost]]]]]]]];
    rewrite Hr.
  - exact Hall.
  - exists pre, post. repeat split; [exact Hl|exact Hpre|].
    intros e He. rewrite Hl in He. apply in_app_or in He as [He|[<-|He]].
    + apply flt_asym. now apply Hpre.
    + apply flt_irrefl.
    + now apply Hpost.
Qed.

(** X19. A pass of variant C returns exactly when the store holds no
    opposing unit or no bot of ours; with both present it goes on to
    position its bots. *)
Theorem death_star_returns_iff (Cos Sin : float64 -> float64)
  (Atan2 : float64 -> float64 -> float64) (gdb : GameDatabase.t) :
  DeathStar.loopBody Cos Sin Atan2 gdb = Returned <->
  TheirBots gdb = [] \/ MyBots gdb = [].
Proof.
  unfold DeathStar.loopBody.
  destruct (TheirBots gdb) as [|e others]; [split; auto|].
  destruct (MyBots gdb) as [|m ms]; [split; auto|].
  destruct (DeathStar.position _ _ _ _ _ _ _ _ _ _ _) as [sent ok].
  split.
  - destruct ok; discriminate.
  - intros [H|H]; discriminate.
Qed.

(** * The store as the strategies see it *)

Lemma pointers_from_units (keep : GDBBot.t -> bool) (bots : list GDBBot.t) :
  forall i,
    map (fun p => nth (p - i) bots GDBBot.zero) (pointers_from keep i bots) =
    filter keep bots.
Proof.
  induction bots as [|bot rest IH]; intros i; simpl; [reflexivity|].
  assert (Hrest :
    map (fun p => nth (p - i) (bot :: rest) GDBBot.zero)
      (pointers_from keep (S i) rest) = filter keep rest).
  { rewrite <- (IH (S i)). apply map_ext_in. intros p Hp.
    apply pointers_from_kept in Hp as [Hle _].
    replace (p - i)%nat with (S (p - S i)) by lia. reflexivity. }
  destruct (keep bot); simpl.
  - rewrite Nat.sub_diag. f_equal. exact Hrest.
  - exact Hrest.
Qed.

Lemma our_units_filter (gdb : GameDatabase.t) :
  our_units gdb =
  filter (fun bot => GDBBot.PID bot =? GameDatabase.PID gdb)
    (GameDatabase.Bots gdb).
Proof.
  unfold our_units, MyBots. rewrite <- (pointers_from_units _ _ 0%nat).
  apply map_ext. intros p. unfold deref. now rewrite Nat.sub_0_r.
Qed.

Lemma their_units_filter (gdb : GameDatabase.t) :
  their_units gdb =
  filter (fun bot => negb (GDBBot.PID bot =? GameDatabase.PID gdb))
    (GameDatabase.Bots gdb).
Proof.
  unfold their_units, TheirBots. rewrite <- (pointers_from_units _ _ 0%nat).
  apply map_ext. intros p. unfold deref. now rewrite Nat.sub_0_r.
Qed.

Lemma same_bot_PID (m : BotMsg.t) (bot : GDBBot.t) :
  same_bot m bot = true -> GDBBot.PID bot = BotMsg.PID m.
Proof.
  unfold same_bot. rewrite andb_true_iff, !Z.eqb_eq. now intros [_ H].
Qed.

Lemma filter_remove_bot (keep : GDBBot.t -> bool) (m : BotMsg.t)
  (bots : list GDBBot.t) :
  (forall bot, same_bot m bot = true -> keep bot = false) ->
  filter keep (remove_bot m bots) = filter keep bots.
Proof.
  intros Hk. induction bots as [|bot rest IH]; simpl; [reflexivity|].
  destruct (same_bot m bot) eqn:E.
  - now rewrite (Hk bot E).
  - simpl. now rewrite IH.
Qed.

Lemma filter_update_bot (pid : Z) (m : BotMsg.t) (bots bots' : list GDBBot.t) :
  BotMsg.PID m <> pid ->
  update_bot m bots = Some bots' ->
  filter (fun bot => GDBBot.PID bot =? pid) bots' =
  filter (fun bot => GDBBot.PID bot =? pid) bots.
Proof.
  intros Hp. revert bots'.
  induction bots as [|bot rest IH]; simpl; intros bots' H; [discriminate|].
  destruct (same_bot m bot) eqn:E.
  - inversion H; subst. simpl. apply same_bot_PID in E. rewrite E.
    now replace (BotMsg.PID m =? pid) with false
      by (symmetry; now apply Z.eqb_neq).
  - destruct (update_bot m rest) as [r|]; simpl in H; [|discriminate].
    inversion H; subst. simpl. now rewrite (IH r eq_refl).
Qed.

(** X20. A message about a bot of another player never changes what
    MyBots yields: whatever the message does to the store (removal, update
    or insertion), the units behind the pointers of MyBots are the same,
    in the same order, after the call as before. *)
Theorem InsertUpdateBot_keeps_our_units (gdb : GameDatabase.t)
  (m : BotMsg.t) :
  BotMsg.PID m <> GameDatabase.PID gdb ->
  our_units (InsertUpdateBot gdb m) = our_units gdb.
Proof.
  intros Hp. rewrite !our_units_filter, InsertUpdateBot_PID.
  unfold InsertUpdateBot.
  destruct (BotMsg.Health m <=? 0); simpl.
  - apply filter_remove_bot. intros bot Hs. apply same_bot_PID in Hs.
    rewrite Hs. now apply Z.eqb_neq.
  - destruct (update_bot m (GameDatabase.Bots gdb)) as [bots|] eqn:E; simpl.
    + eapply filter_update_bot; eauto.
    + rewrite filter_app. simpl.
      replace (BotMsg.PID m =? GameDatabase.PID gdb) with false
        by (symmetry; now apply Z.eqb_neq).
      apply app_nil_r.
Qed.

Lemma InsertUpdateBot_keeps_our_units_witness :
  our_units
    (InsertUpdateBot tie_store (BotMsg.mk 2 1 0 0 0 false 0 0 0 false)) =
  our_units tie_store.
Proof.
  apply InsertUpdateBot_keeps_our_units. simpl. discriminate.
Defined.

Lemma pointers_from_nil (keep : GDBBot.t -> bool) (bots : list GDBBot.t) :
  (forall bot, In bot bots -> keep bot = false) ->
  forall i, pointers_from keep i bots = [].
Proof.
  induction bots as [|bot rest IH]; intros H i; simpl; [reflexivity|].
  rewrite (H bot) by now left. apply IH. intros x Hx. apply H. now right.
Qed.

(** X21. When every opposing unit of a store without two units of one
    identity carries the identity of a message with Health <= 0, the call
    leaves no opposing unit: TheirBots of the new store is empty, and the
    next pass of variants A and C returns. *)
Theorem last_enemy_dead_ends_strategy (gdb : GameDatabase.t) (m : BotMsg.t) :
  unique_ids gdb ->
  BotMsg.Health m <= 0 ->
  (forall bot, In bot (GameDatabase.Bots gdb) ->
     GDBBot.PID bot <> GameDatabase.PID gdb -> same_bot m bot = true) ->
  TheirBots (InsertUpdateBot gdb m) = [] /\
  RecklessAbandon.loopBody (InsertUpdateBot gdb m) = Returned /\
  forall Cos Sin Atan2,
    DeathStar.loopBody Cos Sin Atan2 (InsertUpdateBot gdb m) = Returned.
Proof.
  intros Hu Hh Hall.
  assert (Ht : TheirBots (InsertUpdateBot gdb m) = []).
  { unfold TheirBots. rewrite InsertUpdateBot_PID. unfold InsertUpdateBot.
    replace (BotMsg.Health m <=? 0) with true by (symmetry; lia). simpl.
    apply pointers_from_nil. intros bot Hin.
    apply negb_false_iff, Z.eqb_eq.
    destruct (Z.eq_dec (GDBBot.PID bot) (GameDatabase.PID gdb)) as [|Hne];
      [assumption|exfalso].
    pose proof (filter_nil_none _ _ (remove_bot_same m _ Hu) bot Hin) as Hno.
    rewrite <- same_bot_has_id in Hno.
    rewrite (Hall bot (remove_bot_incl _ _ _ Hin) Hne) in Hno.
    discriminate. }
  split; [exact Ht|]. split.
  - now apply RecklessAbandon_returns.
  - intros. now apply DeathStar_returns.
Qed.

Lemma last_enemy_dead_ends_strategy_witness :
  let gdb :=
    GameDatabase.mk [GDBBot.mk 1 1 0 0 12; GDBBot.mk 1 2 100 0 12] 1 in
  let m := BotMsg.mk 2 1 100 0 0 false 0 0 0 false in
  TheirBots (InsertUpdateBot gdb m) = [] /\
  RecklessAbandon.loopBody (InsertUpdateBot gdb m) = Returned /\
  forall Cos Sin Atan2,
    DeathStar.loopBody Cos Sin Atan2 (InsertUpdateBot gdb m) = Returned.
Proof.
  apply last_enemy_dead_ends_strategy.
  - unfold unique_ids. simpl. constructor.
    + intros [H|[]]. discriminate H.
    + constructor; [intros []|constructor].
  - simpl. lia.
  - intros bot [<-|[<-|[]]] Hne; simpl in *; [congruence|reflexivity].
Defined.

(** * Starting the strategy after the commit *)









